(** * lbg_tools: the completeness estimator

    A shallow embedding of [src/lbg_tools/completeness.py] and the
    properties of its shape enforcement and query path.

    Numbers.  The program computes on IEEE doubles.  The table passes only
    compare, select and copy values, and compare against tolerances; they are
    modelled on the rationals [Q], where comparison and maximum are exact as
    they are on finite doubles.  NaN and the infinities are not represented.

    Objects.  A pandas [DataFrame] is a mutable object that the constructor
    passes by reference through both enforcement passes; it lives in a store
    ([heap]) and is named by a reference.  numpy arrays handed to
    [_force_unimodality] are copied on entry, so they are plain lists. *)

From Stdlib Require Import QArith Qabs Lqa.
From stdpp Require Import gmap strings list.

(** ** Exceptions and the two monads of the model *)

(** A Python exception: its class name and its message. *)
Record exn := Exn { exn_class : string; exn_msg : string }.

Definition ValueError (msg : string) : exn := Exn "ValueError" msg.
Definition IndexError (msg : string) : exn := Exn "IndexError" msg.
Definition AttributeError (msg : string) : exn := Exn "AttributeError" msg.

Inductive result (A : Type) : Type :=
| Ok (a : A)
| Raise (e : exn).
Arguments Ok {A} a.
Arguments Raise {A} e.

Definition rbind {A B} (r : result A) (k : A -> result B) : result B :=
  match r with
  | Ok a => k a
  | Raise e => Raise e
  end.

(** Code that mutates a state of type [S] and may raise: the state reached so
    far survives the exception, as a half-mutated Python object does. *)
Definition St (S A : Type) : Type := S -> result A * S.

Definition ret {S A} (a : A) : St S A := fun s => (Ok a, s).
Definition raise {S A} (e : exn) : St S A := fun s => (Raise e, s).
Definition bind {S A B} (m : St S A) (k : A -> St S B) : St S B :=
  fun s => match m s with
           | (Ok a, s') => k a s'
           | (Raise e, s') => (Raise e, s')
           end.
Definition lift {S A} (r : result A) : St S A := fun s => (r, s).
Definition get {S} : St S S := fun s => (Ok s, s).
Definition put {S} (s : S) : St S unit := fun _ => (Ok tt, s).

Declare Scope st_scope.
Delimit Scope st_scope with st.
Notation "x <- m ;; k" := (bind m (fun x => k))
  (at level 100, m at next level, right associativity) : st_scope.
Notation "m ;;; k" := (bind m (fun _ => k))
  (at level 100, right associativity) : st_scope.
Notation "x <~ r ;; k" := (rbind r (fun x => k))
  (at level 100, r at next level, right associativity) : st_scope.
Open Scope st_scope.

(** [for x in l: body(x)] *)
Fixpoint for_each {S A} (l : list A) (body : A -> St S unit) : St S unit :=
  match l with
  | [] => ret tt
  | x :: l' => body x ;;; for_each l' body
  end.

(** [for x in l: body(x)] where the body reports whether it hit [break]. *)
Fixpoint for_each_break {S A} (l : list A) (body : A -> St S bool) : St S unit :=
  match l with
  | [] => ret tt
  | x :: l' => stop <- body x ;; if stop then ret tt else for_each_break l' body
  end.

(** The same loop for code that keeps its state in local variables. *)
Fixpoint for_fold {A B} (l : list A) (body : A -> B -> result B) (b : B) : result B :=
  match l with
  | [] => Ok b
  | x :: l' => b' <~ body x b ;; for_fold l' body b'
  end.

(** ** numpy primitives *)

(** [max] on doubles, as a choice between its two arguments. *)
Definition fmax (x y : Q) : Q := if Qle_bool x y then y else x.

(** [ndarray.max()]: a reduction from the first element; numpy raises on a
    zero-size array. *)
Definition np_max (a : list Q) : result Q :=
  match a with
  | [] => Raise (ValueError
            "zero-size array to reduction operation maximum which has no identity")
  | x :: l => Ok (fold_left fmax l x)
  end.

Definition rtol : Q := 1 # 100000.
Definition atol : Q := 1 # 100000000.

(** [np.isclose(a, b)] with numpy's default tolerances:
    [abs(a - b) <= atol + rtol * abs(b)]. *)
Definition isclose (a b : Q) : bool :=
  Qle_bool (Qabs (a - b)) (atol + rtol * Qabs b).

(** ** [Completeness._force_unimodality] *)

(** One turn of the loop over [i]: both running maxima are written in place,
    so the slice [front_monotonic[: i + 1]] already holds the maxima written
    on earlier turns, while [back_monotonic[i:]] is still the input. *)
Definition unimodality_step (i : nat) (st : list Q * list Q)
  : result (list Q * list Q) :=
  let '(front_monotonic, back_monotonic) := st in
  f <~ np_max (take (S i) front_monotonic) ;;
  b <~ np_max (drop i back_monotonic) ;;
  Ok (<[i := f]> front_monotonic, <[i := b]> back_monotonic).

Definition _force_unimodality (array : list Q) : result (list Q) :=
  fb <~ for_fold (seq 0 (length array)) unimodality_step (array, array) ;;
  let '(front_monotonic, back_monotonic) := fb in
  top <~ np_max front_monotonic ;;
  Ok (zip_with (fun f b => if isclose f top then b else f)
        front_monotonic back_monotonic).

(** ** pandas: [DataFrame] objects in a store *)

(** A table: row labels (redshift), column labels (magnitude offset) and the
    grid of values, one list per row. *)
Record DataFrame := {
  index : list Q;
  columns : list Q;
  values : list (list Q)
}.

Definition set_values (df : DataFrame) (v : list (list Q)) : DataFrame :=
  {| index := index df; columns := columns df; values := v |}.

(** What [read_csv] yields: one value per row label and column label. *)
Definition rectangular (df : DataFrame) : Prop :=
  length (values df) = length (index df) /\
  Forall (fun row => length row = length (columns df)) (values df).

Definition ref := nat.
Abbreviation heap := (gmap nat DataFrame).

Definition alloc (df : DataFrame) : St heap ref :=
  fun h => let r := fresh (dom h) in (Ok r, <[r := df]> h).

(** Run a method on the object a reference names.  A reference to nothing
    cannot be built in Python; the model rejects it. *)
Definition on_object {A} (r : ref) (method : St DataFrame A) : St heap A :=
  fun h => match h !! r with
           | Some df => let '(res, df') := method df in (res, <[r := df']> h)
           | None => (Raise (Exn "ReferenceError" "no such object"), h)
           end.

Definition out_of_bounds : exn :=
  IndexError "single positional indexer is out-of-bounds".

(** NaN is not a number of this model.  Where pandas would hand back NaN
    (the maximum or minimum of nothing), the model stops with this marker
    instead of going on with a number of its own making. *)
Definition NaN_result : exn := Exn "NaN" "not a number".

(** The methods of a [DataFrame], on the object itself.  Positions out of
    range raise [IndexError], as [iloc] does. *)
Module df.
(** [table.shape] *)
Definition shape (df : DataFrame) : nat * nat :=
  (length (index df), length (columns df)).

(** [table.iloc[i, j]] *)
Definition iloc_get (i j : nat) : St DataFrame Q :=
  fun df => match values df !! i ≫= (.!! j) with
            | Some x => (Ok x, df)
            | None => (Raise out_of_bounds, df)
            end.

(** [table.iloc[i, j] = v] *)
Definition iloc_set (i j : nat) (v : Q) : St DataFrame unit :=
  fun df => match values df !! i with
            | Some row =>
                if decide (j < length row)%nat
                then (Ok tt, set_values df (<[i := <[j := v]> row]> (values df)))
                else (Raise out_of_bounds, df)
            | None => (Raise out_of_bounds, df)
            end.

(** [table.iloc[i, :] = v]: every column of row [i]. *)
Definition iloc_set_row (i : nat) (v : Q) : St DataFrame unit :=
  fun df => match values df !! i with
            | Some row =>
                (Ok tt, set_values df (<[i := replicate (length row) v]> (values df)))
            | None => (Raise out_of_bounds, df)
            end.

(** [table.iloc[i, j:]] *)
Definition iloc_row_from (i j : nat) : St DataFrame (list Q) :=
  fun df => match values df !! i with
            | Some row => (Ok (drop j row), df)
            | None => (Raise out_of_bounds, df)
            end.

(** [table.iloc[:, j].to_numpy()] *)
Definition iloc_col (j : nat) : St DataFrame (list Q) :=
  fun df => match mapM (.!! j) (values df) with
            | Some col =>
                if decide (j < length (columns df))%nat then (Ok col, df)
                else (Raise out_of_bounds, df)
            | None => (Raise out_of_bounds, df)
            end.

(** [table.iloc[:, j] = a] *)
Definition iloc_set_col (j : nat) (a : list Q) : St DataFrame unit :=
  fun df => if decide (j < length (columns df))%nat then
              if decide (length a = length (values df)) then
                (Ok tt, set_values df
                          (zip_with (fun row v => <[j := v]> row) (values df) a))
              else (Raise (ValueError
                      "Length of values does not match length of index"), df)
            else (Raise out_of_bounds, df).
End df.

(** [Series.max()] and [Index.min()], reductions from the first element. *)
Definition Series_max (s : list Q) : result Q :=
  match s with
  | [] => Raise NaN_result
  | x :: l => Ok (fold_left fmax l x)
  end.

Definition fmin (x y : Q) : Q := if Qle_bool y x then y else x.

Definition Index_min (s : list Q) : result Q :=
  match s with
  | [] => Raise NaN_result
  | x :: l => Ok (fold_left fmin l x)
  end.

(** The operations of the program on a table it holds by reference. *)
Definition shape (table : ref) : St heap (nat * nat) :=
  on_object table (fun df => (Ok (df.shape df), df)).
Definition iloc_get (table : ref) (i j : nat) : St heap Q :=
  on_object table (df.iloc_get i j).
Definition iloc_set (table : ref) (i j : nat) (v : Q) : St heap unit :=
  on_object table (df.iloc_set i j v).
Definition iloc_set_row (table : ref) (i : nat) (v : Q) : St heap unit :=
  on_object table (df.iloc_set_row i v).
Definition iloc_row_from (table : ref) (i j : nat) : St heap (list Q) :=
  on_object table (df.iloc_row_from i j).
Definition iloc_col (table : ref) (j : nat) : St heap (list Q) :=
  on_object table (df.iloc_col j).
Definition iloc_set_col (table : ref) (j : nat) (a : list Q) : St heap unit :=
  on_object table (df.iloc_set_col j a).

(** ** [Completeness._force_mag_monotonicity] *)

(** The body of the loop over [j]; [true] is [break].  The value tested is
    the one now in the table; on a value close to zero the assignment is to
    [table.iloc[i, :]]. *)
Definition mag_scan_cell (table : ref) (i j : nat) : St heap bool :=
  x <- iloc_get table i j ;;
  if isclose x 0 then
    iloc_set_row table i 0 ;;;
    ret true
  else
    right <- iloc_row_from table i j ;;
    top <- lift (Series_max right) ;;
    iloc_set table i j top ;;;
    ret false.

Definition _force_mag_monotonicity (table : ref) : St heap ref :=
  sh <- shape table ;;
  for_each (seq 0 (fst sh)) (fun i =>
    sh' <- shape table ;;
    for_each_break (seq 0 (snd sh')) (mag_scan_cell table i)) ;;;
  ret table.

(** ** [Completeness._force_z_unimodality] *)

(** Each column in turn is read out, passed through the primitive and
    written back. *)
Definition _force_z_unimodality (table : ref) : St heap ref :=
  sh <- shape table ;;
  for_each (seq 0 (snd sh)) (fun j =>
    col <- iloc_col table j ;;
    new_col <- lift (_force_unimodality col) ;;
    iloc_set_col table j new_col) ;;;
  ret table.

(** ** numpy arrays of the query path *)

(** A two-dimensional array: [width] is its second dimension, kept apart
    because an array may have no row to read it from. *)
Record matrix := { width : nat; rows : list (list Q) }.

Definition height (m : matrix) : nat := length (rows m).

(** What a caller may pass for a magnitude or a redshift: a float, a 1-D
    array or a 2-D array.  Arrays of more dimensions are not modelled. *)
Inductive ndarray :=
| Scalar (x : Q)
| Array1 (v : list Q)
| Array2 (m : matrix).

Definition nd_map (f : Q -> Q) (a : ndarray) : ndarray :=
  match a with
  | Scalar x => Scalar (f x)
  | Array1 v => Array1 (map f v)
  | Array2 m => Array2 {| width := width m; rows := map (map f) (rows m) |}
  end.

(** [np.atleast_2d]: a scalar becomes 1 x 1, a vector of length n becomes
    1 x n. *)
Definition atleast_2d (a : ndarray) : matrix :=
  match a with
  | Scalar x => {| width := 1; rows := [[x]] |}
  | Array1 v => {| width := length v; rows := [v] |}
  | Array2 m => m
  end.

Definition well_shaped (a : ndarray) : Prop :=
  Forall (fun row => length row = width (atleast_2d a)) (rows (atleast_2d a)).

(** numpy's broadcasting rule for one dimension. *)
Definition broadcast_dim (a b : nat) : result nat :=
  if decide (a = b) then Ok a
  else if decide (a = 1) then Ok b
  else if decide (b = 1) then Ok a
  else Raise (ValueError
         "shape mismatch: objects cannot be broadcast to a single shape").

(** Stretch a dimension of size one to size [n]; other sizes are kept. *)
Definition stretch {A} (n : nat) (l : list A) : list A :=
  match l with
  | [x] => replicate n x
  | _ => l
  end.

Definition broadcast_to (h w : nat) (m : matrix) : list (list Q) :=
  stretch h (map (stretch w) (rows m)).

(** [np.squeeze]: dimensions of size one are dropped. *)
Definition squeeze (m : matrix) : ndarray :=
  if decide (height m = 1 /\ width m = 1) then
    match concat (rows m) with
    | [x] => Scalar x
    | v => Array1 v
    end
  else if decide (height m = 1 \/ width m = 1) then Array1 (concat (rows m))
  else Array2 m.

(** All the numbers an array holds. *)
Definition elements (a : ndarray) : list Q :=
  match a with
  | Scalar x => [x]
  | Array1 v => v
  | Array2 m => concat (rows m)
  end.

(** Evaluate an interpolator on the pair [(z, dm)]: scipy broadcasts the two
    coordinate arrays against each other and evaluates point by point. *)
Definition evaluate (f : Q -> Q -> Q) (z dm : ndarray) : result matrix :=
  let zs := atleast_2d z in
  let ds := atleast_2d dm in
  h <~ broadcast_dim (height zs) (height ds) ;;
  w <~ broadcast_dim (width zs) (width ds) ;;
  Ok {| width := w;
        rows := zip_with (zip_with f) (broadcast_to h w zs) (broadcast_to h w ds) |}.

(** [completeness[i] = self._force_unimodality(completeness[i])] *)
Definition unimodal_row (i : nat) (c : list (list Q)) : result (list (list Q)) :=
  match c !! i with
  | Some row => new_row <~ _force_unimodality row ;; Ok (<[i := new_row]> c)
  | None => Raise out_of_bounds
  end.

(** [completeness[:, j] = self._force_unimodality(completeness[:, j])] *)
Definition unimodal_col (j : nat) (c : list (list Q)) : result (list (list Q)) :=
  match mapM (.!! j) c with
  | Some col =>
      new_col <~ _force_unimodality col ;;
      Ok (zip_with (fun row v => <[j := v]> row) c new_col)
  | None => Raise out_of_bounds
  end.

(** ** The estimator *)

Record Completeness := {
  _band : string;
  _m5_det : Q;
  table0 : ref;
  table : ref;
  _interpolator : Q -> Q -> Q
}.

(** A value a caller may try to assign to an attribute. *)
Inductive pyval :=
| PyStr (s : string)
| PyFloat (x : Q).

(** A [property]: its getter and, when one was declared, its setter. *)
Record property (A : Type) := {
  fget : Completeness -> A;
  fset : option (Completeness -> pyval -> result Completeness)
}.
Arguments fget {A} p self.
Arguments fset {A} p.

(** [@property def band] and [@property def m5_det]: no setter is declared. *)
Definition band : property string := {| fget := _band; fset := None |}.
Definition m5_det : property Q := {| fget := _m5_det; fset := None |}.

(** [self.<name> = v] where [<name>] is a property of the class: Python calls
    [property.__set__], which raises when there is no setter. *)
Definition property_set {A} (name : string) (p : property A)
    (self : Completeness) (v : pyval) : result Completeness :=
  match fset p with
  | Some setter => setter self v
  | None => Raise (AttributeError
              ("property '" +:+ name +:+ "' of 'Completeness' object has no setter"))
  end.

(** A data directory: the file of a given name, when there is one, as
    [pd.read_csv] parses it (a table, or the parser's exception). *)
Definition directory := string -> option (result DataFrame).

(** [for directory in data.directories: if file.exists(): ...; break] *)
Fixpoint find_table (directories : list directory) (name : string)
  : option (result DataFrame) :=
  match directories with
  | [] => None
  | d :: ds =>
      match d name with
      | Some parsed => Some parsed
      | None => find_table ds name
      end
  end.

(** [f"completeness_{band}.dat"] *)
Definition table_file (band : string) : string :=
  "completeness_" +:+ band +:+ ".dat".

Definition newline : string := String (Ascii.ascii_of_nat 10) EmptyString.

Definition not_found_message (band : string) : string :=
  table_file band +:+ " not found in any data directory." +:+ newline +:+
  "Perhaps you need to run `from lbg_tools import data` and " +:+
  "`data.add_directory('path/to/files')` before creating the " +:+
  "completeness object.".

Section Estimator.

(** scipy's [RegularGridInterpolator(points, values, method="linear",
    bounds_error=False, fill_value=None)]: from the two axes and the grid
    it builds a function of a point, or rejects its arguments. *)
Variable RegularGridInterpolator :
  list Q -> list Q -> list (list Q) -> result (Q -> Q -> Q).

(** [Completeness.__init__], given the registered [data.directories].  The
    loaded table is one object: [self.table0] names it, both passes receive
    and return that name, and [self.table] is what the second pass returns. *)
Definition __init__ (directories : list directory) (band : string) (m5_det : Q)
  : St heap Completeness :=
  match find_table directories (table_file band) with
  | None => raise (ValueError (not_found_message band))
  | Some parsed =>
      loaded <- lift parsed ;;
      table0 <- alloc loaded ;;
      t <- _force_mag_monotonicity table0 ;;
      table <- _force_z_unimodality t ;;
      df <- on_object table get ;;
      interp <- lift (RegularGridInterpolator (index df) (columns df) (values df)) ;;
      ret {| _band := band; _m5_det := m5_det;
             table0 := table0; table := table; _interpolator := interp |}
  end.

End Estimator.

(** [Completeness.__call__]: the offset from the depth, clipped from below at
    the smallest column label; the interpolator at [(z, dm)]; the clip from
    below at zero; the primitive along every row, then along every column,
    of the result seen as a 2-D array; [squeeze]. *)
Definition __call__ (self : Completeness) (m z : ndarray) : St heap ndarray :=
  let dm := nd_map (fun x => x - fget m5_det self)%Q m in
  cols <- on_object (table self) (fun df => (Ok (columns df), df)) ;;
  lo <- lift (Index_min cols) ;;
  let dm := nd_map (fun x => fmax x lo) dm in
  completeness <- lift (evaluate (_interpolator self) z dm) ;;
  let clipped := map (map (fun x => fmax x 0)) (rows completeness) in
  by_rows <- lift (for_fold (seq 0 (height completeness)) unimodal_row clipped) ;;
  by_cols <- lift (for_fold (seq 0 (width completeness)) unimodal_col by_rows) ;;
  ret (squeeze {| width := width completeness; rows := by_cols |}).

(** ** A model of scipy's linear interpolator

    The program is stated over any [RegularGridInterpolator]; concrete runs
    use this one.  It follows scipy's linear method on an ascending grid:
    the cell of a point is found by [searchsorted] and clamped to the grid,
    and the multilinear form of that cell is evaluated at the point, also
    when the point lies outside the grid (which is what [fill_value=None]
    asks for). *)

Fixpoint searchsorted (grid : list Q) (x : Q) : nat :=
  match grid with
  | [] => 0
  | g :: grid' => if Qle_bool x g then 0 else S (searchsorted grid' x)
  end.

Fixpoint strictly_ascending (grid : list Q) : bool :=
  match grid with
  | g :: (g' :: _) as grid' => negb (Qle_bool g' g) && strictly_ascending grid'
  | _ => true
  end.

(** The lower corner of the cell used for [x], and the normalised distance
    of [x] from it. *)
Definition find_cell (grid : list Q) (x : Q) : nat * Q :=
  let i := Nat.min (searchsorted grid x - 1) (length grid - 2) in
  let g0 := nth i grid 0%Q in
  let g1 := nth (S i) grid 0%Q in
  (i, ((x - g0) / (g1 - g0))%Q).

Definition evaluate_linear (zs ds : list Q) (v : list (list Q)) (z d : Q) : Q :=
  let '(i, yz) := find_cell zs z in
  let '(j, yd) := find_cell ds d in
  let corner a b := nth (j + b) (nth (i + a) v []) 0%Q in
  let c00 := corner 0 0 in
  let c01 := corner 0 1 in
  let c10 := corner 1 0 in
  let c11 := corner 1 1 in
  ((1 - yz) * (1 - yd) * c00 + (1 - yz) * yd * c01
   + yz * (1 - yd) * c10 + yz * yd * c11)%Q.

Definition linear_interpolator (zs ds : list Q) (v : list (list Q))
  : result (Q -> Q -> Q) :=
  if strictly_ascending zs && strictly_ascending ds then
    if bool_decide (2 <= length zs /\ 2 <= length ds /\ length v = length zs /\
                    Forall (fun row => length row = length ds) v)
    then Ok (evaluate_linear zs ds v)
    else Raise (ValueError "There are too few points or values in a dimension")
  else Raise (ValueError "The points in a dimension must be strictly ascending").

(** ** The running maxima, as the specification names them *)

Fixpoint cummax_from (acc : Q) (l : list Q) : list Q :=
  match l with
  | [] => []
  | x :: l' => fmax acc x :: cummax_from (fmax acc x) l'
  end.

(** The forward running maximum: entry [i] is the maximum of [a[0..i]]. *)
Definition forward_max (a : list Q) : list Q :=
  match a with
  | [] => []
  | x :: l => x :: cummax_from x l
  end.

(** The backward running maximum: entry [i] is the maximum of [a[i..]]. *)
Fixpoint backward_max (a : list Q) : list Q :=
  match a with
  | [] => []
  | x :: l => fold_left fmax l x :: backward_max l
  end.

(** [m] is a greatest element of [l]. *)
Definition is_max (m : Q) (l : list Q) : Prop :=
  m ∈ l /\ forall x, x ∈ l -> (x <= m)%Q.

Definition nondecreasing (l : list Q) : Prop :=
  forall i j x y, (i <= j)%nat -> l !! i = Some x -> l !! j = Some y -> (x <= y)%Q.

Definition nonincreasing (l : list Q) : Prop :=
  forall i j x y, (i <= j)%nat -> l !! i = Some x -> l !! j = Some y -> (y <= x)%Q.

(** Rising to a peak at position [p], falling from it. *)
Definition unimodal_at (p : nat) (l : list Q) : Prop :=
  nondecreasing (take (S p) l) /\ nonincreasing (drop p l).

Definition unimodal (l : list Q) : Prop := exists p, unimodal_at p l.


(** The tolerance [np.isclose] grants around [top]. *)
Definition tolerance (top : Q) : Q := (atol + rtol * Qabs top)%Q.

(** ** What the passes and the query compute *)

(** The choice made at each position: the backward maximum where the forward
    one is close to the top, the forward one elsewhere. *)
Definition blend (top : Q) (front back : list Q) : list Q :=
  zip_with (fun f b => if isclose f top then b else f) front back.

(** What magnitude enforcement makes of one row: zero everywhere when some
    entry is close to zero, the backward running maximum otherwise. *)
Definition mag_row (row : list Q) : list Q :=
  if existsb (fun x => isclose x 0) row
  then replicate (length row) 0%Q
  else backward_max row.

(** The grid the constructor stores: magnitude enforcement row by row, then
    the unimodality primitive column by column. *)
Definition enforce (df : DataFrame) : result (list (list Q)) :=
  for_fold (seq 0 (length (columns df))) unimodal_col (map mag_row (values df)).

(** Two arrays of one shape. *)
Definition same_shape (a b : ndarray) : Prop :=
  nd_map (fun _ => 0%Q) a = nd_map (fun _ => 0%Q) b.

(** Sizes that numpy broadcasts against each other. *)
Definition compatible (a b : nat) : Prop := a = b \/ a = 1%nat \/ b = 1%nat.

Definition broadcastable (a b : ndarray) : Prop :=
  compatible (height (atleast_2d a)) (height (atleast_2d b)) /\
  compatible (width (atleast_2d a)) (width (atleast_2d b)).

(** A grid of [h] rows, each of [w] entries. *)
Definition grid_of (h w : nat) (c : list (list Q)) : Prop :=
  length c = h /\ Forall (fun row => length row = w) c.

(** An array with no empty dimension. *)
Definition nonempty (a : ndarray) : Prop :=
  (1 <= height (atleast_2d a))%nat /\ (1 <= width (atleast_2d a))%nat.

(** ** Example arrays, tables and estimators *)

(** An array whose first entry is within [np.isclose]'s tolerance of its
    maximum without reaching it. *)
Definition near_peak : list Q := [499996 # 1000000; 1 # 2]%Q.

(** A directory holding one file. *)
Definition single_file (name : string) (content : DataFrame) : directory :=
  fun asked => if decide (asked = name) then Some (Ok content) else None.

(** Rows that fall with magnitude, columns that rise with redshift; the
    second column comes within tolerance of its peak one row early. *)
Definition near_peak_table : DataFrame := {|
  index := [0; 1]%Q;
  columns := [0; 1]%Q;
  values := [[499996 # 1000000; 499996 # 1000000]; [9 # 10; 1 # 2]]%Q
|}.

(** A row that reaches zero at its faintest magnitude. *)
Definition fading_table : DataFrame := {|
  index := [0; 1]%Q;
  columns := [0; 1; 2]%Q;
  values := [[9 # 10; 1 # 2; 0]; [9 # 10; 1 # 2; 3 # 10]]%Q
|}.

(** Completeness that rises with redshift up to the last row of the grid. *)
Definition rising_table : DataFrame := {|
  index := [0; 1]%Q;
  columns := [0; 1]%Q;
  values := [[1 # 2; 1 # 2]; [9 # 10; 9 # 10]]%Q
|}.

Definition u_file : string := "completeness_u.dat".

(** The estimator built for band [u] at depth 26 from [rising_table]. *)
Definition rising_estimator : Completeness := {|
  _band := "u";
  _m5_det := 26;
  table0 := 0%nat;
  table := 0%nat;
  _interpolator :=
    evaluate_linear (index rising_table) (columns rising_table) (values rising_table)
|}.

Definition rising_store : heap := {[ 0%nat := rising_table ]}.

(** The grid stored for [near_peak_table]. *)
Definition near_peak_stored : list (list Q) :=
  [[499996 # 1000000; 1 # 2]; [9 # 10; 1 # 2]]%Q.

Definition near_peak_estimator : Completeness := {|
  _band := "u";
  _m5_det := 26;
  table0 := 0%nat;
  table := 0%nat;
  _interpolator :=
    evaluate_linear (index near_peak_table) (columns near_peak_table) near_peak_stored
|}.

(** The grid magnitude enforcement leaves for [fading_table]. *)
Definition fading_enforced : list (list Q) :=
  [[0; 0; 0]; [9 # 10; 1 # 2; 3 # 10]]%Q.

(** A file with its line of column labels and no row. *)
Definition header_only_table : DataFrame := {|
  index := [];
  columns := [0; 1]%Q;
  values := []
|}.

(** * Properties *)

(** ** Order facts about [fmax], [np_max] and [isclose] *)

Lemma fmax_l x y : (x <= fmax x y)%Q.
Proof.
  unfold fmax. destruct (Qle_bool x y) eqn:E.
  - now apply Qle_bool_iff.
  - apply Qle_refl.
Qed.

Lemma fmax_r x y : (y <= fmax x y)%Q.
Proof.
  unfold fmax. destruct (Qle_bool x y) eqn:E.
  - apply Qle_refl.
  - apply Qlt_le_weak, Qnot_le_lt. intros H. apply Qle_bool_iff in H. congruence.
Qed.

Lemma fmax_cases x y : fmax x y = x \/ fmax x y = y.
Proof. unfold fmax. destruct (Qle_bool x y); auto. Qed.

Lemma fmax_lub x y z : (x <= z)%Q -> (y <= z)%Q -> (fmax x y <= z)%Q.
Proof. intros. destruct (fmax_cases x y) as [-> | ->]; assumption. Qed.

Lemma fmax_absorb x y : fmax x (fmax x y) = fmax x y.
Proof.
  unfold fmax. destruct (Qle_bool x y) eqn:E; rewrite ?E; [reflexivity|].
  assert (Qle_bool x x = true) as -> by (apply Qle_bool_iff, Qle_refl).
  reflexivity.
Qed.

Lemma fmax_below x y : (x <= y)%Q -> fmax x y = y.
Proof. intros H. unfold fmax. apply Qle_bool_iff in H. now rewrite H. Qed.

Lemma fold_fmax_init l x : (x <= fold_left fmax l x)%Q.
Proof.
  revert x. induction l as [|y l IH]; intros x; simpl.
  - apply Qle_refl.
  - eapply Qle_trans; [apply (fmax_l x y) | apply IH].
Qed.

Lemma fold_fmax_elem l x y : y ∈ l -> (y <= fold_left fmax l x)%Q.
Proof.
  revert x. induction l as [|z l IH]; intros x Hy; simpl.
  - inversion Hy.
  - apply elem_of_cons in Hy as [-> | Hy].
    + eapply Qle_trans; [apply (fmax_r x z) | apply fold_fmax_init].
    + now apply IH.
Qed.

Lemma fold_fmax_in l x : fold_left fmax l x ∈ x :: l.
Proof.
  revert x. induction l as [|y l IH]; intros x; simpl.
  - apply list_elem_of_here.
  - specialize (IH (fmax x y)). apply elem_of_cons in IH as [E | IH].
    + rewrite E. destruct (fmax_cases x y) as [-> | ->].
      * apply list_elem_of_here.
      * apply list_elem_of_further, list_elem_of_here.
    + now do 2 apply list_elem_of_further.
Qed.

Lemma np_max_is_max l m : np_max l = Ok m -> is_max m l.
Proof.
  destruct l as [|x l]; simpl; [discriminate|].
  intros [= <-]. split.
  - apply fold_fmax_in.
  - intros y Hy. apply elem_of_cons in Hy as [-> | Hy].
    + apply fold_fmax_init.
    + now apply fold_fmax_elem.
Qed.

Lemma np_max_nonempty l : l <> [] -> exists m, np_max l = Ok m.
Proof. destruct l; [congruence | eauto]. Qed.

Lemma tolerance_nonneg top : (0 <= tolerance top)%Q.
Proof.
  unfold tolerance, atol, rtol. pose proof (Qabs_nonneg top). lra.
Qed.

Lemma isclose_spec x top :
  isclose x top = true <-> (Qabs (x - top) <= tolerance top)%Q.
Proof. unfold isclose, tolerance. apply Qle_bool_iff. Qed.

Lemma isclose_below x top :
  (x <= top)%Q -> isclose x top = true <-> (top <= x + tolerance top)%Q.
Proof.
  intros Hx. rewrite isclose_spec, Qabs_Qle_condition.
  pose proof (tolerance_nonneg top). split; intros; [lra | split; lra].
Qed.

Lemma isclose_eq x top : (x == top)%Q -> isclose x top = true.
Proof.
  intros E. apply isclose_below; [lra|]. pose proof (tolerance_nonneg top). lra.
Qed.

Lemma isclose_upward x y top :
  (x <= y)%Q -> (y <= top)%Q -> isclose x top = true -> isclose y top = true.
Proof.
  intros Hxy Hy Hx. apply isclose_below in Hx; [|lra].
  apply isclose_below; lra.
Qed.

(** ** The loop of [_force_unimodality] computes the running maxima *)

Lemma np_max_snoc pre acc v :
  np_max pre = Ok acc -> np_max (pre ++ [v]) = Ok (fmax acc v).
Proof.
  destruct pre as [|x pre]; simpl; [discriminate|].
  intros [= <-]. now rewrite fold_left_app.
Qed.

(** Past the first [length pre] turns: the written prefix of the forward
    array has maximum [acc]; the backward array is untouched from there on. *)
Lemma unimodality_loop suf : forall pre pre' acc,
  length pre' = length pre ->
  np_max pre = Ok acc ->
  for_fold (seq (length pre) (length suf)) unimodality_step (pre ++ suf, pre' ++ suf)
  = Ok (pre ++ cummax_from acc suf, pre' ++ backward_max suf).
Proof.
  induction suf as [|y suf IH]; intros pre pre' acc Hlen Hacc; simpl.
  - reflexivity.
  - replace (take (S (length pre)) (pre ++ y :: suf)) with (pre ++ [y]).
    2:{ replace (S (length pre)) with (length pre + 1)%nat by lia.
        now rewrite take_app_add. }
    rewrite (np_max_snoc _ _ _ Hacc). simpl.
    rewrite <- Hlen at 1. rewrite drop_app_length. simpl.
    replace (<[length pre := fmax acc y]> (pre ++ y :: suf))
      with ((pre ++ [fmax acc y]) ++ suf).
    2:{ rewrite insert_app_r_alt, Nat.sub_diag by lia. simpl.
        now rewrite <- app_assoc. }
    replace (<[length pre := fold_left fmax suf y]> (pre' ++ y :: suf))
      with ((pre' ++ [fold_left fmax suf y]) ++ suf).
    2:{ rewrite insert_app_r_alt, Hlen, Nat.sub_diag by lia. simpl.
        now rewrite <- app_assoc. }
    replace (S (length pre)) with (length (pre ++ [fmax acc y]))
      by (rewrite length_app; simpl; lia).
    rewrite (IH _ _ (fmax acc y)).
    + now rewrite <- !app_assoc.
    + rewrite !length_app. simpl. lia.
    + rewrite (np_max_snoc _ _ _ Hacc). now rewrite fmax_absorb.
Qed.

Lemma unimodality_loop_all a :
  for_fold (seq 0 (length a)) unimodality_step (a, a)
  = Ok (forward_max a, backward_max a).
Proof.
  destruct a as [|x l]; [reflexivity|].
  pose proof (unimodality_loop l [x] [fold_left fmax l x] x eq_refl eq_refl) as H.
  simpl in *. exact H.
Qed.

(** The top of the forward running maximum is the maximum of the array. *)
Lemma fold_cummax l : forall x,
  fold_left fmax (cummax_from x l) x = fold_left fmax l x.
Proof.
  induction l as [|y l IH]; intros x; simpl; [reflexivity|].
  rewrite fmax_absorb. apply IH.
Qed.

Lemma np_max_forward_max a : np_max (forward_max a) = np_max a.
Proof. destruct a as [|x l]; simpl; [reflexivity|]. now rewrite fold_cummax. Qed.

Lemma length_cummax_from l : forall x, length (cummax_from x l) = length l.
Proof. induction l; intros; simpl; auto. Qed.

Lemma length_forward_max a : length (forward_max a) = length a.
Proof. destruct a; simpl; [|rewrite length_cummax_from]; reflexivity. Qed.

Lemma length_backward_max a : length (backward_max a) = length a.
Proof. induction a; simpl; auto. Qed.

Lemma force_unimodality_blend a top :
  np_max a = Ok top ->
  _force_unimodality a = Ok (blend top (forward_max a) (backward_max a)).
Proof.
  intros Htop. unfold _force_unimodality.
  rewrite unimodality_loop_all. simpl.
  rewrite np_max_forward_max, Htop. reflexivity.
Qed.

Lemma force_unimodality_empty :
  exists msg, _force_unimodality [] = Raise (ValueError msg).
Proof. eexists. reflexivity. Qed.

Lemma force_unimodality_total a :
  a <> [] -> exists r, _force_unimodality a = Ok r /\ length r = length a.
Proof.
  intros Ha. destruct (np_max_nonempty a Ha) as [top Htop].
  rewrite (force_unimodality_blend a top Htop). eexists; split; [reflexivity|].
  unfold blend. rewrite length_zip_with_l_eq; [apply length_forward_max|].
  now rewrite length_forward_max, length_backward_max.
Qed.

(** ** What the running maxima are *)

Lemma cummax_from_lookup l : forall x i f,
  cummax_from x l !! i = Some f -> f = fold_left fmax (take (S i) l) x.
Proof.
  induction l as [|y l IH]; intros x i f; simpl; [discriminate|].
  destruct i as [|i]; simpl.
  - now intros [= <-].
  - apply IH.
Qed.

Lemma forward_max_lookup a i f :
  forward_max a !! i = Some f -> np_max (take (S i) a) = Ok f.
Proof.
  destruct a as [|x l]; simpl; [discriminate|].
  destruct i as [|i]; simpl.
  - now intros [= <-].
  - intros H. now rewrite (cummax_from_lookup _ _ _ _ H).
Qed.

Lemma backward_max_lookup a : forall i b,
  backward_max a !! i = Some b -> np_max (drop i a) = Ok b.
Proof.
  induction a as [|x l IH]; intros i b; simpl; [discriminate|].
  destruct i as [|i]; simpl.
  - now intros [= <-].
  - apply IH.
Qed.

Lemma forward_max_is_max a i f :
  forward_max a !! i = Some f -> is_max f (take (S i) a).
Proof. intros H. now apply np_max_is_max, forward_max_lookup. Qed.

Lemma backward_max_is_max a i b :
  backward_max a !! i = Some b -> is_max b (drop i a).
Proof. intros H. now apply np_max_is_max, backward_max_lookup. Qed.

Lemma forward_max_ge a i k f v :
  forward_max a !! i = Some f -> a !! k = Some v -> (k <= i)%nat -> (v <= f)%Q.
Proof.
  intros Hf Hv Hk. apply (forward_max_is_max _ _ _ Hf).
  apply elem_of_take. exists k. split; [assumption | lia].
Qed.

Lemma backward_max_ge a i k b v :
  backward_max a !! i = Some b -> a !! k = Some v -> (i <= k)%nat -> (v <= b)%Q.
Proof.
  intros Hb Hv Hk. apply (backward_max_is_max _ _ _ Hb).
  apply list_elem_of_lookup. exists (k - i)%nat. rewrite lookup_drop.
  now replace (i + (k - i))%nat with k by lia.
Qed.

Lemma forward_max_attained a i f :
  forward_max a !! i = Some f -> exists k, (k <= i)%nat /\ a !! k = Some f.
Proof.
  intros Hf. destruct (forward_max_is_max _ _ _ Hf) as [Hin _].
  apply elem_of_take in Hin as (k & Hk & Hlt). exists k. split; [lia | assumption].
Qed.

Lemma backward_max_attained a i b :
  backward_max a !! i = Some b -> exists k, (i <= k)%nat /\ a !! k = Some b.
Proof.
  intros Hb. destruct (backward_max_is_max _ _ _ Hb) as [Hin _].
  apply list_elem_of_lookup in Hin as (k & Hk). rewrite lookup_drop in Hk.
  exists (i + k)%nat. split; [lia | assumption].
Qed.

Lemma forward_max_nondecreasing a : nondecreasing (forward_max a).
Proof.
  intros i j x y Hij Hx Hy.
  destruct (forward_max_attained _ _ _ Hx) as (k & Hk & Hak).
  apply (forward_max_ge a j k y x Hy Hak). lia.
Qed.

Lemma backward_max_nonincreasing a : nonincreasing (backward_max a).
Proof.
  intros i j x y Hij Hx Hy.
  destruct (backward_max_attained _ _ _ Hy) as (k & Hk & Hak).
  apply (backward_max_ge a i k x y Hx Hak). lia.
Qed.

Lemma forward_max_le_top a top i f :
  np_max a = Ok top -> forward_max a !! i = Some f -> (f <= top)%Q.
Proof.
  intros Htop Hf. destruct (forward_max_attained _ _ _ Hf) as (k & _ & Hk).
  apply (np_max_is_max _ _ Htop). now apply list_elem_of_lookup_2 in Hk.
Qed.

Lemma backward_max_le_top a top i b :
  np_max a = Ok top -> backward_max a !! i = Some b -> (b <= top)%Q.
Proof.
  intros Htop Hb. destruct (backward_max_attained _ _ _ Hb) as (k & _ & Hk).
  apply (np_max_is_max _ _ Htop). now apply list_elem_of_lookup_2 in Hk.
Qed.

(** Somewhere the array holds its maximum. *)
Lemma top_position a top :
  np_max a = Ok top -> exists q, a !! q = Some top.
Proof.
  intros Htop. destruct (np_max_is_max _ _ Htop) as [Hin _].
  now apply list_elem_of_lookup_1.
Qed.

Lemma running_max_defined a i v :
  a !! i = Some v ->
  exists f b, forward_max a !! i = Some f /\ backward_max a !! i = Some b.
Proof.
  intros Hv. apply lookup_lt_Some in Hv.
  destruct (lookup_lt_is_Some_2 (forward_max a) i) as [f Hf];
    [now rewrite length_forward_max|].
  destruct (lookup_lt_is_Some_2 (backward_max a) i) as [b Hb];
    [now rewrite length_backward_max|].
  eauto.
Qed.


(** ** The blend of the two running maxima *)

Lemma blend_lookup top front back i r :
  blend top front back !! i = Some r <->
  exists f b, front !! i = Some f /\ back !! i = Some b /\
              r = if isclose f top then b else f.
Proof.
  unfold blend. rewrite lookup_zip_with_Some. split.
  - intros (f & b & -> & Hf & Hb). eauto.
  - intros (f & b & Hf & Hb & ->). eauto.
Qed.

Lemma length_blend top a :
  length (blend top (forward_max a) (backward_max a)) = length a.
Proof.
  unfold blend. rewrite length_zip_with_l_eq; [apply length_forward_max|].
  now rewrite length_forward_max, length_backward_max.
Qed.

Section Blend.

Variables (a : list Q) (top : Q).
Hypothesis Htop : np_max a = Ok top.

Local Abbreviation out := (blend top (forward_max a) (backward_max a)).

Lemma blend_le_top i r : out !! i = Some r -> (r <= top)%Q.
Proof.
  intros (f & b & Hf & Hb & ->)%blend_lookup.
  destruct (isclose f top).
  - eapply backward_max_le_top; eauto.
  - eapply forward_max_le_top; eauto.
Qed.


(** Close to the top is an upward closed set of positions. *)
Lemma close_upward i j f g :
  forward_max a !! i = Some f -> forward_max a !! j = Some g ->
  (i <= j)%nat -> isclose f top = true -> isclose g top = true.
Proof.
  intros Hf Hg Hij Hc. eapply isclose_upward; [| |exact Hc].
  - eapply forward_max_nondecreasing; eauto.
  - eapply forward_max_le_top; eauto.
Qed.

(** The first position whose forward maximum is close to the top. *)
Lemma first_close :
  exists p f, list_find (fun f => isclose f top = true) (forward_max a) = Some (p, f).
Proof.
  destruct (top_position _ _ Htop) as [q Hq].
  destruct (running_max_defined _ _ _ Hq) as (f & b & Hf & Hb).
  destruct (list_find_elem_of (fun f => isclose f top = true) (forward_max a) f)
    as [[p g] Hp].
  - eapply list_elem_of_lookup_2; eauto.
  - apply isclose_eq, Qle_antisym; [eapply forward_max_le_top; eauto|].
    eapply forward_max_ge; eauto.
  - eauto.
Qed.

Lemma blend_peak p f :
  list_find (fun f => isclose f top = true) (forward_max a) = Some (p, f) ->
  exists b, out !! p = Some b /\ (b == top)%Q.
Proof.
  intros (Hf & Hc & Hfirst)%list_find_Some.
  destruct (lookup_lt_is_Some_2 (backward_max a) p) as [b Hb].
  { rewrite length_backward_max, <- length_forward_max. eapply lookup_lt_Some; eauto. }
  exists b. split.
  - apply blend_lookup. exists f, b. now rewrite Hc.
  - apply Qle_antisym; [eapply backward_max_le_top; eauto|].
    destruct (top_position _ _ Htop) as [q Hq].
    eapply backward_max_ge; eauto.
    destruct (Nat.le_gt_cases p q) as [|Hqp]; [assumption|exfalso].
    destruct (running_max_defined _ _ _ Hq) as (g & _ & Hg & _).
    apply (Hfirst q g Hg Hqp).
    apply isclose_eq, Qle_antisym; [eapply forward_max_le_top; eauto|].
    eapply forward_max_ge; eauto.
Qed.

Lemma blend_unimodal : unimodal out.
Proof.
  destruct first_close as (p & f & Hfind).
  destruct (blend_peak _ _ Hfind) as (bp & Hbp & Ebp).
  pose proof Hfind as (Hf & Hc & Hfirst)%list_find_Some.
  exists p. split.
  - intros i j x y Hij [Hx Hi]%lookup_take_Some [Hy Hj]%lookup_take_Some.
    destruct (decide (j = p)) as [-> | Hne].
    + assert (y = bp) as -> by congruence.
      rewrite Ebp. eapply blend_le_top; eauto.
    + apply blend_lookup in Hx as (fx & bx & Hfx & Hbx & ->).
      apply blend_lookup in Hy as (fy & bj & Hfy & Hby & ->).
      destruct (isclose fx top) eqn:Ex; [exfalso; apply (Hfirst i fx); auto; lia|].
      destruct (isclose fy top) eqn:Ey; [exfalso; apply (Hfirst j fy); auto; lia|].
      apply (forward_max_nondecreasing a i j fx fy); auto.
  - intros i j x y Hij Hx Hy. rewrite lookup_drop in Hx, Hy.
    apply blend_lookup in Hx as (fx & bx & Hfx & Hbx & ->).
    apply blend_lookup in Hy as (fy & bj & Hfy & Hby & ->).
    rewrite (close_upward p (p + i) f fx), (close_upward p (p + j) f fy);
      auto; try lia.
    apply (backward_max_nonincreasing a (p + i)%nat (p + j)%nat bx bj); auto. lia.
Qed.

(** The output holds the maximum of the input, and nothing greater. *)
Lemma blend_max : exists m, np_max out = Ok m /\ (m == top)%Q.
Proof.
  destruct first_close as (p & f & Hfind).
  destruct (blend_peak _ _ Hfind) as (bp & Hbp & Ebp).
  destruct (np_max_nonempty out) as [m Hm].
  { intros E. rewrite E in Hbp. discriminate. }
  exists m. split; [assumption|].
  destruct (np_max_is_max _ _ Hm) as [Hin Hle].
  apply Qle_antisym.
  - apply list_elem_of_lookup_1 in Hin as [i Hi]. eapply blend_le_top; eauto.
  - rewrite <- Ebp. apply Hle. eapply list_elem_of_lookup_2; eauto.
Qed.


End Blend.

(** ** The unimodality primitive *)

Lemma force_unimodality_inv a r :
  _force_unimodality a = Ok r ->
  exists top, np_max a = Ok top /\
              r = blend top (forward_max a) (backward_max a).
Proof.
  intros Hr. destruct (np_max a) as [top|e] eqn:Htop.
  - exists top. rewrite (force_unimodality_blend a top Htop) in Hr.
    split; congruence.
  - destruct a; simpl in *; discriminate.
Qed.

Lemma force_unimodality_elements a r v :
  _force_unimodality a = Ok r -> v ∈ r -> v ∈ a.
Proof.
  intros (top & Htop & ->)%force_unimodality_inv Hv.
  apply list_elem_of_lookup_1 in Hv as [i Hi].
  apply blend_lookup in Hi as (f & b & Hf & Hb & ->).
  destruct (isclose f _).
  - destruct (backward_max_attained _ _ _ Hb) as (k & _ & Hk).
    eapply list_elem_of_lookup_2; eauto.
  - destruct (forward_max_attained _ _ _ Hf) as (k & _ & Hk).
    eapply list_elem_of_lookup_2; eauto.
Qed.

Lemma force_unimodality_length a r :
  _force_unimodality a = Ok r -> length r = length a.
Proof.
  intros (top & Htop & ->)%force_unimodality_inv. apply length_blend.
Qed.

(** C3, as the code has it: on a non-empty array the primitive returns, at
    every position, the forward running maximum, except where that maximum is
    within [np.isclose]'s tolerance of its greatest value, where it returns
    the backward running maximum; on the empty array it raises. *)
Theorem force_unimodality_running_maxima (a : list Q) :
  match _force_unimodality a with
  | Ok r =>
      exists top,
        np_max (forward_max a) = Ok top /\
        length r = length a /\
        forall i f b,
          forward_max a !! i = Some f -> backward_max a !! i = Some b ->
          r !! i = Some (if isclose f top then b else f)
  | Raise e => a = []
  end.
Proof.
  destruct a as [|x l]; [reflexivity|].
  rewrite (force_unimodality_blend (x :: l) _ eq_refl).
  exists (fold_left fmax l x). split; [apply np_max_forward_max|].
  split; [apply length_blend|].
  intros i f b Hf Hb. apply blend_lookup. eauto.
Qed.

(** C3, as stated, fails: the forward running maximum of [near_peak] at
    position 0 is not its greatest value, yet the result there is the
    backward running maximum. *)
Lemma force_unimodality_replaces_near_peak :
  exists r,
    _force_unimodality near_peak = Ok r /\
    forward_max near_peak !! 0%nat = Some (499996 # 1000000)%Q /\
    backward_max near_peak !! 0%nat = Some (1 # 2)%Q /\
    np_max (forward_max near_peak) = Ok (1 # 2)%Q /\
    ~ (499996 # 1000000 == 1 # 2)%Q /\
    r !! 0%nat = Some (1 # 2)%Q /\
    r !! 0%nat <> forward_max near_peak !! 0%nat.
Proof.
  exists [1 # 2; 1 # 2]%Q. repeat split; try reflexivity; discriminate.
Qed.



(** ** Running the table passes on the store *)

Lemma bind_ok {S A B} (m : St S A) (k : A -> St S B) s a s' :
  m s = (Ok a, s') -> bind m k s = k a s'.
Proof. unfold bind. now intros ->. Qed.

Lemma set_values_values df : set_values df (values df) = df.
Proof. now destruct df. Qed.

Section Store.

Variables (r : ref) (h0 : heap).

Lemma on_object_insert {A} (m : St DataFrame A) df :
  on_object r m (<[r := df]> h0) = (fst (m df), <[r := snd (m df)]> h0).
Proof.
  unfold on_object. rewrite lookup_insert_eq. destruct (m df) as [res df'].
  now rewrite insert_insert_eq.
Qed.

Lemma shape_insert df :
  shape r (<[r := df]> h0) = (Ok (df.shape df), <[r := df]> h0).
Proof. unfold shape. now rewrite on_object_insert. Qed.

Lemma iloc_get_insert df i j row x :
  values df !! i = Some row -> row !! j = Some x ->
  iloc_get r i j (<[r := df]> h0) = (Ok x, <[r := df]> h0).
Proof.
  intros Hrow Hx. unfold iloc_get. rewrite on_object_insert.
  unfold df.iloc_get. rewrite Hrow. simpl. now rewrite Hx.
Qed.

Lemma iloc_set_row_insert df i row v :
  values df !! i = Some row ->
  iloc_set_row r i v (<[r := df]> h0)
  = (Ok tt, <[r := set_values df (<[i := replicate (length row) v]> (values df))]> h0).
Proof.
  intros Hrow. unfold iloc_set_row. rewrite on_object_insert.
  unfold df.iloc_set_row. now rewrite Hrow.
Qed.

Lemma iloc_row_from_insert df i j row :
  values df !! i = Some row ->
  iloc_row_from r i j (<[r := df]> h0) = (Ok (drop j row), <[r := df]> h0).
Proof.
  intros Hrow. unfold iloc_row_from. rewrite on_object_insert.
  unfold df.iloc_row_from. now rewrite Hrow.
Qed.

Lemma iloc_set_insert df i j row v :
  values df !! i = Some row -> (j < length row)%nat ->
  iloc_set r i j v (<[r := df]> h0)
  = (Ok tt, <[r := set_values df (<[i := <[j := v]> row]> (values df))]> h0).
Proof.
  intros Hrow Hj. unfold iloc_set. rewrite on_object_insert.
  unfold df.iloc_set. rewrite Hrow. now rewrite decide_True.
Qed.

Lemma mag_scan_cell_run df i pre y suf :
  values df !! i = Some (pre ++ y :: suf) ->
  mag_scan_cell r i (length pre) (<[r := df]> h0)
  = if isclose y 0
    then (Ok true,
          <[r := set_values df
                   (<[i := replicate (length (pre ++ y :: suf)) 0%Q]> (values df))]> h0)
    else (Ok false,
          <[r := set_values df
                   (<[i := pre ++ fold_left fmax suf y :: suf]> (values df))]> h0).
Proof.
  intros Hrow.
  assert (Hy : (pre ++ y :: suf) !! length pre = Some y)
    by now rewrite lookup_app_r, Nat.sub_diag by lia.
  unfold mag_scan_cell.
  erewrite bind_ok; [|eapply iloc_get_insert; eauto].
  destruct (isclose y 0).
  - erewrite bind_ok; [|eapply iloc_set_row_insert; eauto]. reflexivity.
  - erewrite bind_ok; [|eapply iloc_row_from_insert; eauto].
    rewrite drop_app_length. unfold lift at 1.
    erewrite bind_ok; [|reflexivity].
    erewrite bind_ok.
    2:{ eapply iloc_set_insert; eauto. rewrite length_app. simpl. lia. }
    unfold ret. do 3 f_equal.
    rewrite insert_app_r_alt, Nat.sub_diag by lia. reflexivity.
Qed.

(** The scan of one row, from column [length pre] on: [pre] holds the
    maxima already written, [suf] is still as loaded. *)
Lemma mag_scan_row i : forall suf pre df,
  values df !! i = Some (pre ++ suf) ->
  for_each_break (seq (length pre) (length suf)) (mag_scan_cell r i) (<[r := df]> h0)
  = (Ok tt,
     <[r := set_values df
              (<[i := if existsb (fun x => isclose x 0) suf
                      then replicate (length (pre ++ suf)) 0%Q
                      else pre ++ backward_max suf]> (values df))]> h0).
Proof.
  induction suf as [|y suf IH]; intros pre df Hrow.
  - simpl. rewrite app_nil_r in *. now rewrite list_insert_id, set_values_values.
  - cbn [length seq for_each_break existsb backward_max].
    unfold bind at 1. rewrite (mag_scan_cell_run df i pre y suf Hrow).
    destruct (isclose y 0) eqn:Ec; simpl; [reflexivity|].
    set (v := fold_left fmax suf y).
    set (df' := set_values df (<[i := pre ++ v :: suf]> (values df))).
    assert (Hrow' : values df' !! i = Some ((pre ++ [v]) ++ suf)).
    { unfold df'. simpl. rewrite <- app_assoc. simpl.
      apply list_lookup_insert_eq. eapply lookup_lt_Some; eauto. }
    specialize (IH (pre ++ [v]) df' Hrow').
    replace (length (pre ++ [v])) with (S (length pre)) in IH
      by (rewrite length_app; simpl; lia).
    rewrite IH. unfold df'. simpl. rewrite list_insert_insert_eq.
    rewrite <- !app_assoc. simpl. rewrite !length_app. simpl. reflexivity.
Qed.

(** The loop over the rows, from row [length done] on. *)
Lemma mag_scan_rows : forall todo done df,
  values df = done ++ todo ->
  Forall (fun row => length row = length (columns df)) todo ->
  for_each (seq (length done) (length todo))
    (fun i => sh' <- shape r ;;
              for_each_break (seq 0 (snd sh')) (mag_scan_cell r i))
    (<[r := df]> h0)
  = (Ok tt, <[r := set_values df (done ++ map mag_row todo)]> h0).
Proof.
  induction todo as [|row todo IH]; intros done df Hv Hlen.
  - simpl. rewrite app_nil_r in *. now rewrite <- Hv, set_values_values.
  - cbn [length seq for_each map].
    apply Forall_cons in Hlen as [Hrow Hlen].
    assert (Hi : values df !! length done = Some ([] ++ row))
      by now rewrite Hv, lookup_app_r, Nat.sub_diag by lia.
    erewrite bind_ok.
    2:{ erewrite bind_ok; [|apply shape_insert]. simpl. rewrite <- Hrow.
        apply (mag_scan_row (length done) row [] df Hi). }
    simpl app.
    set (df' := set_values df _).
    assert (Hv' : values df' = (done ++ [mag_row row]) ++ todo).
    { unfold df'. simpl. rewrite Hv, insert_app_r_alt, Nat.sub_diag by lia.
      simpl. now rewrite <- app_assoc. }
    specialize (IH (done ++ [mag_row row]) df' Hv' Hlen).
    replace (length (done ++ [mag_row row])) with (S (length done)) in IH
      by (rewrite length_app; simpl; lia).
    rewrite IH. unfold df'. simpl. now rewrite <- app_assoc.
Qed.

Lemma force_mag_monotonicity_run df :
  rectangular df ->
  _force_mag_monotonicity r (<[r := df]> h0)
  = (Ok r, <[r := set_values df (map mag_row (values df))]> h0).
Proof.
  intros [Hrows Hcols]. unfold _force_mag_monotonicity.
  erewrite bind_ok; [|apply shape_insert]. simpl. rewrite <- Hrows.
  erewrite bind_ok; [|apply (mag_scan_rows (values df) [] df eq_refl Hcols)].
  reflexivity.
Qed.

Lemma unimodal_col_length j c c' :
  unimodal_col j c = Ok c' -> length c' = length c.
Proof.
  unfold unimodal_col. destruct (mapM _ c) as [col|] eqn:Hcol; [|discriminate].
  destruct (_force_unimodality col) as [new|] eqn:Hnew; [|discriminate].
  simpl. intros [= <-]. apply length_zip_with_l_eq.
  rewrite (force_unimodality_length _ _ Hnew). exact (length_mapM _ _ _ Hcol).
Qed.

(** One turn of the loop over the columns. *)
Lemma z_column_run df j :
  (j < length (columns df))%nat ->
  (col <- iloc_col r j ;;
   new_col <- lift (_force_unimodality col) ;;
   iloc_set_col r j new_col) (<[r := df]> h0)
  = match unimodal_col j (values df) with
    | Ok v => (Ok tt, <[r := set_values df v]> h0)
    | Raise e => (Raise e, <[r := df]> h0)
    end.
Proof.
  intros Hj. unfold bind, iloc_col, iloc_set_col, unimodal_col.
  rewrite on_object_insert. unfold df.iloc_col.
  destruct (mapM _ (values df)) as [col|] eqn:Hcol; simpl; [|reflexivity].
  rewrite decide_True by assumption. simpl. unfold lift.
  destruct (_force_unimodality col) as [new|e] eqn:Hnew; simpl; [|reflexivity].
  rewrite on_object_insert. unfold df.iloc_set_col.
  rewrite decide_True by assumption.
  rewrite decide_True; [reflexivity|].
  rewrite (force_unimodality_length _ _ Hnew). symmetry.
  exact (length_mapM _ _ _ Hcol).
Qed.

Lemma z_columns_run : forall js df,
  Forall (fun j => (j < length (columns df))%nat) js ->
  exists reached,
    for_each js
      (fun j => col <- iloc_col r j ;;
                new_col <- lift (_force_unimodality col) ;;
                iloc_set_col r j new_col) (<[r := df]> h0)
    = (match for_fold js unimodal_col (values df) with
       | Ok _ => Ok tt
       | Raise e => Raise e
       end, <[r := set_values df reached]> h0) /\
    forall v, for_fold js unimodal_col (values df) = Ok v -> reached = v.
Proof.
  induction js as [|j js IH]; intros df Hjs.
  - exists (values df). simpl. rewrite set_values_values. split; [reflexivity|].
    now intros v [= <-].
  - apply Forall_cons in Hjs as [Hj Hjs]. cbn [for_each for_fold].
    unfold bind at 1. rewrite (z_column_run df j Hj).
    destruct (unimodal_col j (values df)) as [v1|e] eqn:Hstep; simpl.
    + destruct (IH (set_values df v1) Hjs) as (reached & Hrun & Hok).
      exists reached. simpl in *. rewrite Hrun. split; [reflexivity | assumption].
    + exists (values df). rewrite set_values_values. split; [reflexivity|discriminate].
Qed.

(** The unimodality pass, on the store: its outcome is that of the same loop
    run on the grid of values. *)
Lemma force_z_unimodality_run df :
  exists reached,
    _force_z_unimodality r (<[r := df]> h0)
    = (match for_fold (seq 0 (length (columns df))) unimodal_col (values df) with
       | Ok _ => Ok r
       | Raise e => Raise e
       end, <[r := set_values df reached]> h0) /\
    forall v, for_fold (seq 0 (length (columns df))) unimodal_col (values df) = Ok v ->
              reached = v.
Proof.
  destruct (z_columns_run (seq 0 (length (columns df))) df) as (reached & Hrun & Hok).
  { apply Forall_forall. intros j Hj. apply elem_of_seq in Hj. lia. }
  exists reached. split; [|assumption].
  unfold _force_z_unimodality.
  erewrite bind_ok; [|apply shape_insert]. cbn [snd df.shape].
  unfold bind at 1. rewrite Hrun.
  now destruct (for_fold _ _ _).
Qed.

End Store.

(** ** Construction *)

Section Construction.

Variable RegularGridInterpolator :
  list Q -> list Q -> list (list Q) -> result (Q -> Q -> Q).

Lemma init_run directories band m5_det (h : heap) loaded :
  find_table directories (table_file band) = Some (Ok loaded) ->
  rectangular loaded ->
  exists reached,
    __init__ RegularGridInterpolator directories band m5_det h
    = (match enforce loaded with
       | Ok v =>
           match RegularGridInterpolator (index loaded) (columns loaded) v with
           | Ok interp =>
               Ok {| _band := band; _m5_det := m5_det;
                     table0 := fresh (dom h); table := fresh (dom h);
                     _interpolator := interp |}
           | Raise e => Raise e
           end
       | Raise e => Raise e
       end, <[fresh (dom h) := set_values loaded reached]> h) /\
    forall v, enforce loaded = Ok v -> reached = v.
Proof.
  intros Hfind Hrect. unfold __init__. rewrite Hfind.
  set (r := fresh (dom h)).
  erewrite bind_ok; [|reflexivity].
  erewrite bind_ok; [|reflexivity]. fold r.
  erewrite bind_ok; [|now apply force_mag_monotonicity_run].
  set (df1 := set_values loaded (map mag_row (values loaded))).
  destruct (force_z_unimodality_run r h df1) as (reached & Hrun & Hok).
  exists reached. split; [|exact Hok].
  unfold bind at 1. rewrite Hrun. unfold enforce.
  change (columns df1) with (columns loaded) in *.
  change (values df1) with (map mag_row (values loaded)) in *.
  destruct (for_fold _ unimodal_col _) as [v|e] eqn:Hv; [|reflexivity].
  rewrite (Hok v eq_refl).
  unfold bind at 1. rewrite on_object_insert. simpl.
  unfold bind, lift. simpl.
  destruct (RegularGridInterpolator _ _ v); reflexivity.
Qed.

(** What a successful construction leaves behind. *)
Lemma init_ok directories band m5_det (h h' : heap) loaded self :
  find_table directories (table_file band) = Some (Ok loaded) ->
  rectangular loaded ->
  __init__ RegularGridInterpolator directories band m5_det h = (Ok self, h') ->
  exists v interp,
    enforce loaded = Ok v /\
    RegularGridInterpolator (index loaded) (columns loaded) v = Ok interp /\
    self = {| _band := band; _m5_det := m5_det;
              table0 := fresh (dom h); table := fresh (dom h);
              _interpolator := interp |} /\
    h' = <[fresh (dom h) := set_values loaded v]> h.
Proof.
  intros Hfind Hrect Hinit.
  destruct (init_run directories band m5_det h loaded Hfind Hrect)
    as (reached & Hrun & Hok).
  rewrite Hrun in Hinit.
  destruct (enforce loaded) as [v|e] eqn:Hv; [|discriminate].
  destruct (RegularGridInterpolator _ _ v) as [interp|e] eqn:Hi; [|discriminate].
  injection Hinit as <- <-. exists v, interp. now rewrite (Hok v eq_refl).
Qed.

End Construction.

Lemma bind_inv {S A B} (m : St S A) (k : A -> St S B) s b s' :
  bind m k s = (Ok b, s') -> exists a s1, m s = (Ok a, s1) /\ k a s1 = (Ok b, s').
Proof.
  unfold bind. destruct (m s) as [[a|e] s1]; [eauto | discriminate].
Qed.

(** ** The estimator's properties and its constructor *)

Section Constructed.

Variable RegularGridInterpolator :
  list Q -> list Q -> list (list Q) -> result (Q -> Q -> Q).

Lemma init_fields directories band_name depth (h h' : heap) self :
  __init__ RegularGridInterpolator directories band_name depth h = (Ok self, h') ->
  _band self = band_name /\ _m5_det self = depth.
Proof.
  unfold __init__. destruct (find_table _ _) as [parsed|]; [|discriminate].
  intros H.
  apply bind_inv in H as (loaded & h1 & _ & H).
  apply bind_inv in H as (t0 & h2 & _ & H).
  apply bind_inv in H as (t & h3 & _ & H).
  apply bind_inv in H as (t' & h4 & _ & H).
  apply bind_inv in H as (df & h5 & _ & H).
  apply bind_inv in H as (interp & h6 & _ & H).
  unfold ret in H. injection H as <- _. split; reflexivity.
Qed.

(** C9: on an estimator the constructor returned, the properties [band] and
    [m5_det] read back the band name and depth given to the constructor, and
    assigning to either raises [AttributeError]. *)
Theorem band_and_depth_read_only directories band_name depth (h h' : heap) self :
  __init__ RegularGridInterpolator directories band_name depth h = (Ok self, h') ->
  fget band self = band_name /\
  fget m5_det self = depth /\
  forall v,
    (exists msg, property_set "band" band self v = Raise (AttributeError msg)) /\
    (exists msg, property_set "m5_det" m5_det self v = Raise (AttributeError msg)).
Proof.
  intros Hinit. destruct (init_fields _ _ _ _ _ _ Hinit) as [Hb Hd].
  split; [exact Hb|]. split; [exact Hd|].
  intros v. split; eexists; reflexivity.
Qed.

(** C7, as the code has it: when no data directory holds the band's file,
    the constructor raises [ValueError] with the message that tells the
    caller to add a data directory, and stores no table. *)
Theorem init_without_table directories band_name depth (h : heap) :
  Forall (fun d : directory => d (table_file band_name) = None) directories ->
  __init__ RegularGridInterpolator directories band_name depth h
  = (Raise (ValueError (not_found_message band_name)), h).
Proof.
  intros Hnone. unfold __init__.
  assert (find_table directories (table_file band_name) = None) as ->; [|reflexivity].
  induction Hnone as [|d ds Hd _ IH]; simpl; [reflexivity|].
  now rewrite Hd.
Qed.

(** C10: after a successful construction [table0] and [table] are one
    reference; the store has changed at that reference alone, which was
    unused before and now holds the enforced grid under the loaded labels;
    the interpolator was built from that same grid. *)
Theorem init_shares_table directories band_name depth (h h' : heap) loaded self :
  find_table directories (table_file band_name) = Some (Ok loaded) ->
  rectangular loaded ->
  __init__ RegularGridInterpolator directories band_name depth h = (Ok self, h') ->
  table self = table0 self /\
  h !! table0 self = None /\
  exists v,
    enforce loaded = Ok v /\
    h' = <[table0 self := set_values loaded v]> h /\
    h' !! table self = Some (set_values loaded v) /\
    RegularGridInterpolator (index loaded) (columns loaded) v
    = Ok (_interpolator self).
Proof.
  intros Hfind Hrect Hinit.
  destruct (init_ok _ _ _ _ _ _ _ _ Hfind Hrect Hinit)
    as (v & interp & Hv & Hi & -> & ->).
  simpl. split; [reflexivity|]. split.
  - apply not_elem_of_dom, is_fresh.
  - exists v. rewrite lookup_insert_eq. auto.
Qed.

End Constructed.

(** ** The query path *)

Lemma for_fold_invariant {A B} (I : B -> Prop) (body : A -> B -> result B) l :
  (forall x b b', body x b = Ok b' -> I b -> I b') ->
  forall b b', for_fold l body b = Ok b' -> I b -> I b'.
Proof.
  intros Hstep. induction l as [|x l IH]; intros b b'; simpl.
  - now intros [= <-].
  - destruct (body x b) as [b1|e] eqn:Hb; simpl; [|discriminate].
    intros Hrest Hb0. eapply IH; eauto.
Qed.

Lemma force_unimodality_Forall (P : Q -> Prop) a r :
  _force_unimodality a = Ok r -> Forall P a -> Forall P r.
Proof.
  rewrite !Forall_forall. intros Hr Ha v Hv.
  apply Ha. eapply force_unimodality_elements; eauto.
Qed.

Lemma unimodal_row_Forall (P : Q -> Prop) i c c' :
  unimodal_row i c = Ok c' -> Forall (Forall P) c -> Forall (Forall P) c'.
Proof.
  unfold unimodal_row. destruct (c !! i) as [row|] eqn:Hrow; [|discriminate].
  destruct (_force_unimodality row) as [new|] eqn:Hnew; [|discriminate].
  simpl. intros [= <-] Hc. apply Forall_insert; [assumption|].
  eapply force_unimodality_Forall; eauto.
  eapply Forall_lookup_1; eauto.
Qed.

Lemma column_Forall (P : Q -> Prop) j c col :
  mapM (.!! j) c = Some col -> Forall (Forall P) c -> Forall P col.
Proof.
  intros Hcol%mapM_Some_1 Hc. apply Forall_lookup. intros i y Hy.
  destruct (Forall2_lookup_r _ _ _ _ _ Hcol Hy) as (row & Hrow & Hj).
  eapply Forall_lookup_1; [|exact Hj]. eapply Forall_lookup_1; eauto.
Qed.

Lemma unimodal_col_Forall (P : Q -> Prop) j c c' :
  unimodal_col j c = Ok c' -> Forall (Forall P) c -> Forall (Forall P) c'.
Proof.
  unfold unimodal_col. destruct (mapM _ c) as [col|] eqn:Hcol; [|discriminate].
  destruct (_force_unimodality col) as [new|] eqn:Hnew; [|discriminate].
  simpl. intros [= <-] Hc.
  eapply Forall_zip_with_fst; [exact Hc|].
  assert (Hnew' : Forall P new).
  { eapply force_unimodality_Forall; eauto. eapply column_Forall; eauto. }
  eapply Forall_impl; [exact Hnew'|]. intros v Hv row Hrow.
  now apply Forall_insert.
Qed.

Lemma elements_squeeze m : elements (squeeze m) = concat (rows m).
Proof.
  unfold squeeze. destruct (decide _); [|destruct (decide _); reflexivity].
  destruct (concat (rows m)) as [|x [|y l]]; reflexivity.
Qed.

Lemma evaluate_entries f z dm c :
  evaluate f z dm = Ok c ->
  Forall (Forall (fun v => exists zz d, v = f zz d)) (rows c).
Proof.
  unfold evaluate.
  destruct (broadcast_dim _ _) as [h|]; [|discriminate].
  destruct (broadcast_dim _ _) as [w|]; [|discriminate].
  simpl. intros [= <-]. simpl.
  apply Forall_lookup. intros i row (zs & ds & -> & _ & _)%lookup_zip_with_Some.
  apply Forall_lookup. intros j v (zz & d & -> & _ & _)%lookup_zip_with_Some.
  eauto.
Qed.

(** Every number a query returns is a value of the interpolator, clipped
    from below at zero. *)
Lemma call_entries self m z (h h' : heap) r :
  __call__ self m z h = (Ok r, h') ->
  Forall (fun v => exists zz d, v = fmax (_interpolator self zz d) 0) (elements r).
Proof.
  unfold __call__. intros H.
  apply bind_inv in H as (cols & h1 & _ & H).
  apply bind_inv in H as (lo & h2 & _ & H).
  apply bind_inv in H as (c & h3 & Hc & H).
  apply bind_inv in H as (by_rows & h4 & Hrows & H).
  apply bind_inv in H as (by_cols & h5 & Hcols & H).
  unfold ret in H. injection H as <- _.
  unfold lift in Hc, Hrows, Hcols.
  injection Hc as Hc _. injection Hrows as Hrows _. injection Hcols as Hcols _.
  rewrite elements_squeeze. simpl. apply Forall_concat.
  eapply (for_fold_invariant _ unimodal_col); [|exact Hcols|].
  { intros j b b'. apply unimodal_col_Forall. }
  eapply (for_fold_invariant _ unimodal_row); [|exact Hrows|].
  { intros i b b'. apply unimodal_row_Forall. }
  apply Forall_fmap. eapply Forall_impl; [exact (evaluate_entries _ _ _ _ Hc)|].
  intros row Hrow. apply Forall_fmap. eapply Forall_impl; [exact Hrow|].
  intros v (zz & d & ->). simpl. eauto.
Qed.

(** The bounds a query does keep: every value it returns is at least 0, and
    it is a value of the interpolator clipped from below at 0, so that it
    stays under any bound the interpolator stays under. *)
Theorem call_values_bounded self m z (h h' : heap) r :
  __call__ self m z h = (Ok r, h') ->
  forall v, v ∈ elements r ->
    (0 <= v)%Q /\
    (exists zz d, v = fmax (_interpolator self zz d) 0) /\
    forall bound, (0 <= bound)%Q ->
      (forall zz d, (_interpolator self zz d <= bound)%Q) -> (v <= bound)%Q.
Proof.
  intros Hcall v Hv.
  pose proof (call_entries _ _ _ _ _ _ Hcall) as Hall.
  rewrite Forall_forall in Hall. destruct (Hall v Hv) as (zz & d & ->).
  split; [apply fmax_r|]. split; [eauto|].
  intros bound Hb Hi. apply fmax_lub; auto.
Qed.

Lemma map_ext_elem {A B} (f g : A -> B) (l : list A) :
  (forall x, x ∈ l -> f x = g x) -> map f l = map g l.
Proof.
  intros H. apply map_ext_in. intros x Hx. apply H. now apply list_elem_of_In.
Qed.

Lemma nd_map_ext f g a :
  (forall x, x ∈ elements a -> f x = g x) -> nd_map f a = nd_map g a.
Proof.
  destruct a as [x|v|[w rs]]; simpl; intros H.
  - rewrite H; [reflexivity | apply list_elem_of_here].
  - f_equal. now apply map_ext_elem.
  - do 2 f_equal. apply map_ext_elem. intros row Hrow.
    apply map_ext_elem. intros x Hx. apply H.
    apply list_elem_of_In, in_concat. exists row.
    split; now apply list_elem_of_In.
Qed.

Lemma nd_map_nd_map f g a : nd_map g (nd_map f a) = nd_map (fun x => g (f x)) a.
Proof.
  destruct a as [x|v|[w rs]]; simpl; try reflexivity.
  - now rewrite map_map.
  - do 2 f_equal. rewrite map_map. apply map_ext. intros row. apply map_map.
Qed.

Lemma nd_map_const_same_shape c a b :
  same_shape a b -> nd_map (fun _ => c) a = nd_map (fun _ => c) b.
Proof.
  intros H.
  rewrite <- (nd_map_nd_map (fun _ => 0%Q) (fun _ => c) a).
  rewrite <- (nd_map_nd_map (fun _ => 0%Q) (fun _ => c) b).
  unfold same_shape in H. now rewrite H.
Qed.

(** The offsets of a magnitude array that lies wholly at or below the
    brightest column are all clipped to that column. *)
Lemma clipped_offsets depth lo m :
  (forall x, x ∈ elements m -> (x - depth <= lo)%Q) ->
  nd_map (fun x => fmax x lo) (nd_map (fun x => (x - depth)%Q) m)
  = nd_map (fun _ => lo) m.
Proof.
  intros H. rewrite nd_map_nd_map. apply nd_map_ext.
  intros x Hx. apply fmax_below. auto.
Qed.

Lemma clipped_queries_agree self m1 m2 z (h : heap) df lo :
  h !! table self = Some df ->
  Index_min (columns df) = Ok lo ->
  same_shape m1 m2 ->
  (forall x, x ∈ elements m1 -> (x - fget m5_det self <= lo)%Q) ->
  (forall x, x ∈ elements m2 -> (x - fget m5_det self <= lo)%Q) ->
  __call__ self m1 z h = __call__ self m2 z h.
Proof.
  intros Hdf Hlo Hshape H1 H2. unfold __call__, bind, on_object, lift.
  rewrite Hdf. cbv beta iota. rewrite Hlo. cbv beta iota.
  rewrite (clipped_offsets _ lo m1 H1), (clipped_offsets _ lo m2 H2).
  now rewrite (nd_map_const_same_shape lo m1 m2 Hshape).
Qed.

(** *** Broadcasting *)

Lemma broadcast_dim_ok a b n :
  broadcast_dim a b = Ok n ->
  (a = n \/ a = 1%nat) /\ (b = n \/ b = 1%nat) /\ (n = a \/ n = b).
Proof.
  unfold broadcast_dim. repeat case_decide; intros [= <-]; lia.
Qed.

Lemma broadcast_dim_compatible a b :
  compatible a b -> exists n, broadcast_dim a b = Ok n.
Proof.
  unfold compatible, broadcast_dim. intros H.
  repeat case_decide; eauto. lia.
Qed.

Lemma broadcast_dim_mismatch a b :
  ~ compatible a b -> exists msg, broadcast_dim a b = Raise (ValueError msg).
Proof.
  unfold compatible, broadcast_dim. intros H.
  repeat case_decide; try (exfalso; apply H; lia). eauto.
Qed.

Lemma length_stretch {A} n (l : list A) :
  length l = n \/ length l = 1%nat -> length (stretch n l) = n.
Proof.
  destruct l as [|x [|y l]]; simpl; intros [H | H]; try lia.
  - apply length_replicate.
  - apply length_replicate.
Qed.

Lemma Forall_stretch {A} (P : A -> Prop) n (l : list A) :
  Forall P l -> Forall P (stretch n l).
Proof.
  destruct l as [|x [|y l]]; simpl; auto.
  intros H. apply Forall_replicate. now apply Forall_inv in H.
Qed.

Lemma broadcast_to_shape h w m :
  Forall (fun row => length row = width m) (rows m) ->
  height m = h \/ height m = 1%nat ->
  width m = w \/ width m = 1%nat ->
  length (broadcast_to h w m) = h /\
  Forall (fun row => length row = w) (broadcast_to h w m).
Proof.
  intros Hm Hh Hw. unfold broadcast_to. split.
  - apply length_stretch. now rewrite length_map.
  - apply Forall_stretch, Forall_fmap.
    eapply Forall_impl; [exact Hm|]. intros row Hrow. simpl.
    apply length_stretch. now rewrite Hrow.
Qed.

Lemma atleast_2d_nd_map f a :
  atleast_2d (nd_map f a)
  = {| width := width (atleast_2d a);
       rows := map (map f) (rows (atleast_2d a)) |}.
Proof.
  destruct a as [x|v|[w rs]]; simpl; try reflexivity.
  now rewrite length_map.
Qed.

Lemma well_shaped_nd_map f a : well_shaped a -> well_shaped (nd_map f a).
Proof.
  unfold well_shaped. rewrite atleast_2d_nd_map. simpl. intros H.
  apply Forall_fmap. eapply Forall_impl; [exact H|].
  intros row Hrow. simpl. now rewrite length_map.
Qed.

Lemma broadcastable_nd_map f z a :
  broadcastable z (nd_map f a) <-> broadcastable z a.
Proof.
  unfold broadcastable, height. rewrite atleast_2d_nd_map. simpl.
  now rewrite length_map.
Qed.

Lemma evaluate_mismatch f z dm :
  ~ broadcastable z dm -> exists msg, evaluate f z dm = Raise (ValueError msg).
Proof.
  unfold broadcastable, evaluate. intros H.
  destruct (decide (compatible (height (atleast_2d z)) (height (atleast_2d dm))))
    as [Hh | Hh].
  - destruct (broadcast_dim_compatible _ _ Hh) as [h ->]. simpl.
    destruct (broadcast_dim_mismatch (width (atleast_2d z)) (width (atleast_2d dm)))
      as [msg ->]; [tauto | eauto].
  - destruct (broadcast_dim_mismatch _ _ Hh) as [msg ->]. eauto.
Qed.

Lemma evaluate_returns f z dm :
  well_shaped z -> well_shaped dm -> broadcastable z dm ->
  exists h w c,
    broadcast_dim (height (atleast_2d z)) (height (atleast_2d dm)) = Ok h /\
    broadcast_dim (width (atleast_2d z)) (width (atleast_2d dm)) = Ok w /\
    evaluate f z dm = Ok {| width := w; rows := c |} /\ grid_of h w c.
Proof.
  intros Hz Hd [Hh Hw].
  destruct (broadcast_dim_compatible _ _ Hh) as [h Eh].
  destruct (broadcast_dim_compatible _ _ Hw) as [w Ew].
  exists h, w. eexists. split; [exact Eh|]. split; [exact Ew|].
  unfold evaluate. rewrite Eh, Ew. simpl. split; [reflexivity|].
  destruct (broadcast_dim_ok _ _ _ Eh) as (Hzh & Hdh & _).
  destruct (broadcast_dim_ok _ _ _ Ew) as (Hzw & Hdw & _).
  destruct (broadcast_to_shape h w (atleast_2d z) Hz Hzh Hzw) as [Lz Fz].
  destruct (broadcast_to_shape h w (atleast_2d dm) Hd Hdh Hdw) as [Ld Fd].
  split.
  - rewrite length_zip_with_l_eq; congruence.
  - apply Forall_lookup. intros i row (zs & ds & -> & Hzs & Hds)%lookup_zip_with_Some.
    rewrite length_zip_with_l_eq.
    + eapply Forall_lookup_1 in Fz; eauto.
    + eapply Forall_lookup_1 in Fz; eauto. eapply Forall_lookup_1 in Fd; eauto.
      simpl in *. congruence.
Qed.

(** *** The two unimodality loops of a query return *)

Lemma for_fold_total {A B} (I : B -> Prop) (body : A -> B -> result B) l :
  (forall x b, x ∈ l -> I b -> exists b', body x b = Ok b' /\ I b') ->
  forall b, I b -> exists b', for_fold l body b = Ok b' /\ I b'.
Proof.
  induction l as [|x l IH]; intros Hstep b Hb; simpl.
  - eauto.
  - destruct (Hstep x b (list_elem_of_here _ _) Hb) as (b1 & -> & Hb1). simpl.
    apply IH; [|assumption]. intros y c Hy. apply Hstep.
    now apply list_elem_of_further.
Qed.

Lemma unimodal_row_returns h w i c :
  (1 <= w)%nat -> (i < h)%nat -> grid_of h w c ->
  exists c', unimodal_row i c = Ok c' /\ grid_of h w c'.
Proof.
  intros Hw Hi [Hlen Hrows]. unfold unimodal_row.
  destruct (lookup_lt_is_Some_2 c i) as [row Hrow]; [lia|]. rewrite Hrow.
  pose proof (Forall_lookup_1 _ _ _ _ Hrows Hrow) as Hl. simpl in Hl.
  destruct (force_unimodality_total row) as (new & Hnew & Hnl).
  { intros ->. simpl in Hl. lia. }
  rewrite Hnew. simpl. eexists; split; [reflexivity|]. split.
  - now rewrite length_insert.
  - apply Forall_insert; [assumption | congruence].
Qed.

Lemma unimodal_col_returns h w j c :
  (1 <= h)%nat -> (j < w)%nat -> grid_of h w c ->
  exists c', unimodal_col j c = Ok c' /\ grid_of h w c'.
Proof.
  intros Hh Hj [Hlen Hrows]. unfold unimodal_col.
  destruct (mapM _ c) as [col|] eqn:Hcol.
  2:{ exfalso. apply mapM_None_1, Exists_exists in Hcol as (row & Hin & Hnone).
      rewrite Forall_forall in Hrows. specialize (Hrows row Hin). simpl in *.
      apply lookup_ge_None in Hnone. lia. }
  pose proof (length_mapM _ _ _ Hcol) as Hcl.
  destruct (force_unimodality_total col) as (new & Hnew & Hnl).
  { intros ->. simpl in Hcl. lia. }
  rewrite Hnew. simpl. eexists; split; [reflexivity|]. split.
  - rewrite length_zip_with_l_eq; congruence.
  - apply Forall_lookup.
    intros i row' (row & v & -> & Hrow & _)%lookup_zip_with_Some.
    rewrite length_insert. eapply Forall_lookup_1 in Hrows; eauto.
Qed.

(** A query returns when the table is in the store and has a column, the
    two arguments broadcast against each other, and the broadcast shape has
    no empty dimension. *)
Lemma call_returns self m z (h : heap) df :
  h !! table self = Some df -> columns df <> [] ->
  well_shaped m -> well_shaped z -> broadcastable z m ->
  (forall n, broadcast_dim (height (atleast_2d z)) (height (atleast_2d m)) = Ok n ->
             (1 <= n)%nat) ->
  (forall n, broadcast_dim (width (atleast_2d z)) (width (atleast_2d m)) = Ok n ->
             (1 <= n)%nat) ->
  exists r, __call__ self m z h = (Ok r, h).
Proof.
  intros Hdf Hcols Hm Hz Hb Hh1 Hw1.
  destruct (columns df) as [|c0 cs] eqn:Ec; [congruence|].
  unfold __call__, bind, on_object, lift. rewrite Hdf. cbv beta iota.
  rewrite Ec. cbn [Index_min]. cbv beta iota.
  set (dm := nd_map _ (nd_map _ m)).
  assert (Hdm : well_shaped dm) by now do 2 apply well_shaped_nd_map.
  assert (Hbd : broadcastable z dm) by now do 2 apply broadcastable_nd_map.
  destruct (evaluate_returns (_interpolator self) z dm Hz Hdm Hbd)
    as (hh & w & c & Eh & Ew & -> & Hgrid).
  unfold dm, height in Eh, Ew. rewrite !atleast_2d_nd_map in Eh, Ew.
  simpl in Eh, Ew. rewrite !length_map in Eh.
  pose proof (Hh1 _ Eh) as Hh. pose proof (Hw1 _ Ew) as Hw.
  cbv beta iota. cbn [rows width height].
  destruct Hgrid as [Hlen Hrows]. unfold height. cbn [rows]. rewrite Hlen.
  destruct (for_fold_total (grid_of hh w) unimodal_row (seq 0 hh))
    with (b := map (map (fun x => fmax x 0)) c) as (by_rows & -> & Hr).
  { intros i b Hi%elem_of_seq Hb0. apply unimodal_row_returns; [lia | lia | assumption]. }
  { split; [now rewrite length_map|]. apply Forall_fmap.
    eapply Forall_impl; [exact Hrows|]. intros row Hrow. simpl.
    now rewrite length_map. }
  destruct (for_fold_total (grid_of hh w) unimodal_col (seq 0 w))
    with (b := by_rows) as (by_cols & -> & Hc).
  { intros j b Hj%elem_of_seq Hb0. apply unimodal_col_returns; [lia | lia | assumption]. }
  { assumption. }
  unfold ret. rewrite insert_id by assumption. eauto.
Qed.

Lemma call_mismatch self m z (h : heap) df :
  h !! table self = Some df -> columns df <> [] ->
  ~ broadcastable z m ->
  exists msg, __call__ self m z h = (Raise (ValueError msg), h).
Proof.
  intros Hdf Hcols Hb.
  destruct (columns df) as [|c0 cs] eqn:Ec; [congruence|].
  unfold __call__, bind, on_object, lift. rewrite Hdf. cbv beta iota.
  rewrite Ec. cbn [Index_min]. cbv beta iota.
  set (dm := nd_map _ (nd_map _ m)).
  destruct (evaluate_mismatch (_interpolator self) z dm) as [msg ->].
  { unfold dm. now rewrite !broadcastable_nd_map. }
  exists msg. now rewrite insert_id.
Qed.

Section Queries.

Variable RegularGridInterpolator :
  list Q -> list Q -> list (list Q) -> result (Q -> Q -> Q).

(** C6: on a constructed estimator, two magnitude arrays of one shape whose
    offsets from the depth all lie at or below the smallest column label of
    the table give the same outcome against the same redshifts; and when the
    magnitudes broadcast against the redshifts, with no empty dimension on
    either side, that outcome is a returned result. *)
Theorem bright_queries_agree directories band_name depth (h h' : heap)
    loaded self lo m1 m2 z :
  find_table directories (table_file band_name) = Some (Ok loaded) ->
  rectangular loaded ->
  __init__ RegularGridInterpolator directories band_name depth h = (Ok self, h') ->
  Index_min (columns loaded) = Ok lo ->
  same_shape m1 m2 ->
  (forall x, x ∈ elements m1 -> (x - depth <= lo)%Q) ->
  (forall x, x ∈ elements m2 -> (x - depth <= lo)%Q) ->
  __call__ self m1 z h' = __call__ self m2 z h' /\
  (broadcastable z m1 -> well_shaped m1 -> well_shaped z ->
   nonempty m1 -> nonempty z ->
   exists r, __call__ self m1 z h' = (Ok r, h') /\
             __call__ self m2 z h' = (Ok r, h')).
Proof.
  intros Hfind Hrect Hinit Hlo Hshape H1 H2.
  destruct (init_ok _ _ _ _ _ _ _ _ Hfind Hrect Hinit)
    as (v & interp & Hv & Hi & -> & ->).
  set (df := set_values loaded v).
  set (self := {| _band := band_name; _m5_det := depth;
                  table0 := fresh (dom h); table := fresh (dom h);
                  _interpolator := interp |}).
  assert (Hdf : (<[fresh (dom h) := df]> h) !! table self = Some df)
    by apply lookup_insert_eq.
  assert (Hsame : __call__ self m1 z (<[fresh (dom h) := df]> h)
                  = __call__ self m2 z (<[fresh (dom h) := df]> h)).
  { eapply clipped_queries_agree with (df := df) (lo := lo); simpl; auto. }
  split; [exact Hsame|].
  intros Hb Hm Hz [Hmh Hmw] [Hzh Hzw]. rewrite <- Hsame.
  assert (Hcols : columns df <> []).
  { simpl. intros E. rewrite E in Hlo. discriminate. }
  destruct (call_returns self m1 z (<[fresh (dom h) := df]> h) df
              Hdf Hcols Hm Hz Hb) as [r Hr].
  - intros n Hn. apply broadcast_dim_ok in Hn. lia.
  - intros n Hn. apply broadcast_dim_ok in Hn. lia.
  - exists r. split; exact Hr.
Qed.

(** C8, as the code has it: on a constructed estimator a query raises
    [ValueError] when the shapes of its two arguments cannot be broadcast
    against each other; when they can, and neither argument has an empty
    dimension, the query returns a result, whether or not the shapes are
    equal. *)
Theorem call_shape_mismatch directories band_name depth (h h' : heap)
    loaded self m z :
  find_table directories (table_file band_name) = Some (Ok loaded) ->
  rectangular loaded ->
  columns loaded <> [] ->
  __init__ RegularGridInterpolator directories band_name depth h = (Ok self, h') ->
  (~ broadcastable z m ->
   exists msg, __call__ self m z h' = (Raise (ValueError msg), h')) /\
  (broadcastable z m -> well_shaped m -> well_shaped z ->
   nonempty m -> nonempty z ->
   exists r, __call__ self m z h' = (Ok r, h')).
Proof.
  intros Hfind Hrect Hcols Hinit.
  destruct (init_ok _ _ _ _ _ _ _ _ Hfind Hrect Hinit)
    as (v & interp & Hv & Hi & -> & ->).
  set (df := set_values loaded v).
  assert (Hdf : (<[fresh (dom h) := df]> h) !! fresh (dom h) = Some df)
    by apply lookup_insert_eq.
  split.
  - intros Hb. eapply call_mismatch; eauto.
  - intros Hb Hm Hz [Hmh Hmw] [Hzh Hzw].
    eapply call_returns; eauto.
    + intros n Hn. apply broadcast_dim_ok in Hn. lia.
    + intros n Hn. apply broadcast_dim_ok in Hn. lia.
Qed.

End Queries.

(** ** What the stored grid keeps of the two shapes *)

Lemma mag_row_nonincreasing row : nonincreasing (mag_row row).
Proof.
  unfold mag_row. destruct (existsb _ row).
  - intros i j x y _ Hx Hy.
    apply lookup_replicate in Hx as [-> _]. apply lookup_replicate in Hy as [-> _].
    apply Qle_refl.
  - apply backward_max_nonincreasing.
Qed.

Lemma length_mag_row row : length (mag_row row) = length row.
Proof.
  unfold mag_row. destruct (existsb _ row).
  - apply length_replicate.
  - apply length_backward_max.
Qed.


Lemma unimodal_col_grid h w j c c' :
  grid_of h w c -> unimodal_col j c = Ok c' -> grid_of h w c'.
Proof.
  intros [Hlen Hrows] Hc. split.
  - rewrite (unimodal_col_length _ _ _ Hc). exact Hlen.
  - unfold unimodal_col in Hc.
    destruct (mapM _ c) as [col|]; [|discriminate].
    destruct (_force_unimodality col) as [new|]; [|discriminate].
    injection Hc as <-. apply Forall_lookup.
    intros i row' (row & v & -> & Hrow & _)%lookup_zip_with_Some.
    rewrite length_insert. eapply Forall_lookup_1 in Hrows; eauto.
Qed.

(** The pass over column [j] leaves the other columns as they were. *)
Lemma unimodal_col_other j k c c' :
  unimodal_col j c = Ok c' -> j <> k -> mapM (.!! k) c' = mapM (.!! k) c.
Proof.
  intros Hc Hjk. pose proof (unimodal_col_length _ _ _ Hc) as Hlen.
  apply Forall2_mapM_ext, Forall2_same_length_lookup_2; [exact Hlen|].
  unfold unimodal_col in Hc.
  destruct (mapM _ c) as [col|]; [|discriminate].
  destruct (_force_unimodality col) as [new|]; [|discriminate].
  injection Hc as <-.
  intros i row' row (row0 & v & -> & Hrow0 & _)%lookup_zip_with_Some Hrow.
  assert (row0 = row) as -> by congruence.
  now apply list_lookup_insert_ne.
Qed.

(** The pass over column [j] puts the primitive's output in column [j]. *)
Lemma unimodal_col_same h w j c c' :
  grid_of h w c -> (j < w)%nat -> unimodal_col j c = Ok c' ->
  exists col new,
    mapM (.!! j) c = Some col /\ _force_unimodality col = Ok new /\
    mapM (.!! j) c' = Some new.
Proof.
  intros [Hlen Hrows] Hj Hc. unfold unimodal_col in Hc.
  destruct (mapM _ c) as [col|] eqn:Hcol; [|discriminate].
  destruct (_force_unimodality col) as [new|] eqn:Hnew; [|discriminate].
  injection Hc as <-. exists col, new. split; [reflexivity|]. split; [exact Hnew|].
  pose proof (length_mapM _ _ _ Hcol) as Hcl.
  pose proof (force_unimodality_length _ _ Hnew) as Hnl.
  apply mapM_Some_2, Forall2_same_length_lookup_2.
  - rewrite length_zip_with_l_eq; congruence.
  - intros i row' v (row & v' & -> & Hrow & Hv')%lookup_zip_with_Some Hv.
    assert (v' = v) as -> by congruence.
    apply list_lookup_insert_eq.
    eapply Forall_lookup_1 in Hrows; eauto. simpl in Hrows. lia.
Qed.

(** The loop over columns [k], ..., [k + n - 1]. *)
Lemma unimodal_cols_result h w n : forall k c c',
  grid_of h w c -> (k + n <= w)%nat ->
  for_fold (seq k n) unimodal_col c = Ok c' ->
  grid_of h w c' /\
  (forall j, (j < k)%nat \/ (k + n <= j)%nat -> mapM (.!! j) c' = mapM (.!! j) c) /\
  (forall j, (k <= j < k + n)%nat ->
     exists col new,
       mapM (.!! j) c = Some col /\ _force_unimodality col = Ok new /\
       mapM (.!! j) c' = Some new).
Proof.
  induction n as [|n IH]; intros k c c' Hgrid Hk; simpl.
  - intros [= <-]. split; [assumption|]. split; [reflexivity | intros j Hj; lia].
  - destruct (unimodal_col k c) as [c1|] eqn:Hc1; [|discriminate]. simpl.
    intros Hrest.
    pose proof (unimodal_col_grid _ _ _ _ _ Hgrid Hc1) as Hgrid1.
    destruct (IH (S k) c1 c' Hgrid1 ltac:(lia) Hrest) as (Hgrid' & Hout & Hin).
    split; [assumption|]. split.
    + intros j Hj. rewrite Hout by lia.
      apply (unimodal_col_other _ _ _ _ Hc1). lia.
    + intros j Hj. destruct (decide (j = k)) as [-> | Hne].
      * destruct (unimodal_col_same h w k c c1 Hgrid ltac:(lia) Hc1)
          as (col & new & Hcol & Hnew & Hcol1).
        exists col, new. split; [assumption|]. split; [assumption|].
        rewrite Hout by lia. assumption.
      * destruct (Hin j ltac:(lia)) as (col & new & Hcol & Hnew & Hcol').
        exists col, new. split; [|split; assumption].
        rewrite <- Hcol. symmetry. apply (unimodal_col_other _ _ _ _ Hc1). lia.
Qed.

Lemma mag_rows_grid df :
  rectangular df ->
  grid_of (length (index df)) (length (columns df)) (map mag_row (values df)).
Proof.
  intros [Hlen Hrows]. split; [now rewrite length_map|].
  apply Forall_fmap. eapply Forall_impl; [exact Hrows|].
  intros row Hrow. simpl in *. now rewrite length_mag_row.
Qed.

(** Every column of the stored grid is the primitive's output for the same
    column after magnitude enforcement. *)
Lemma enforce_columns df v j :
  rectangular df -> enforce df = Ok v -> (j < length (columns df))%nat ->
  exists col new,
    mapM (.!! j) (map mag_row (values df)) = Some col /\
    _force_unimodality col = Ok new /\
    mapM (.!! j) v = Some new.
Proof.
  intros Hrect Hv Hj. unfold enforce in Hv.
  destruct (unimodal_cols_result _ _ _ 0%nat _ _ (mag_rows_grid df Hrect)
              (Nat.le_refl _) Hv) as (_ & _ & Hin).
  apply Hin. lia.
Qed.

(** Every column of the stored grid is unimodal along redshift. *)
Lemma enforce_columns_unimodal df v j :
  rectangular df -> enforce df = Ok v -> (j < length (columns df))%nat ->
  exists col, mapM (.!! j) v = Some col /\ unimodal col.
Proof.
  intros Hrect Hv Hj.
  destruct (enforce_columns df v j Hrect Hv Hj) as (col & new & _ & Hnew & Hcol).
  exists new. split; [assumption|].
  apply force_unimodality_inv in Hnew as (top & Htop & ->).
  now apply blend_unimodal.
Qed.


(** ** Runs of the program on the example tables *)

Lemma rising_estimator_built :
  __init__ linear_interpolator [single_file u_file rising_table] "u" 26 ∅
  = (Ok rising_estimator, rising_store).
Proof. reflexivity. Qed.

Lemma rising_table_rectangular : rectangular rising_table.
Proof. split; [reflexivity|]. repeat constructor. Qed.

Lemma near_peak_table_rectangular : rectangular near_peak_table.
Proof. split; [reflexivity|]. repeat constructor. Qed.

Lemma near_peak_estimator_built :
  __init__ linear_interpolator [single_file u_file near_peak_table] "u" 26 ∅
  = (Ok near_peak_estimator,
     {[ 0%nat := set_values near_peak_table near_peak_stored ]}).
Proof. reflexivity. Qed.

Lemma nonincreasing_pair x y : nonincreasing [x; y] <-> (y <= x)%Q.
Proof.
  split.
  - intros H. apply (H 0%nat 1%nat x y); [lia | reflexivity | reflexivity].
  - intros Hxy i j a b Hij Ha Hb.
    destruct i as [|[|i]], j as [|[|j]]; simpl in *; try discriminate; try lia;
      injection Ha as <-; injection Hb as <-; auto using Qle_refl.
Qed.

(** C1, on [near_peak_table]: every row of the loaded table falls with
    magnitude and the constructor succeeds, yet the first row of the table
    it stores rises from the first column to the second. *)
Theorem init_breaks_magnitude_order :
  Forall nonincreasing (values near_peak_table) /\
  __init__ linear_interpolator [single_file u_file near_peak_table] "u" 26 ∅
  = (Ok near_peak_estimator,
     {[ 0%nat := set_values near_peak_table near_peak_stored ]}) /\
  near_peak_stored !! 0%nat = Some [499996 # 1000000; 1 # 2]%Q /\
  ~ nonincreasing [499996 # 1000000; 1 # 2]%Q.
Proof.
  split; [|split; [reflexivity|split; [reflexivity|]]].
  - repeat constructor; apply nonincreasing_pair; unfold Qle; simpl; lia.
  - rewrite nonincreasing_pair. unfold Qle. simpl. lia.
Qed.

(** C2, on [fading_table]: the first row reaches zero at its last column
    only; the scan replaces the whole row by zeros, the two brighter columns
    included. *)
Theorem mag_monotonicity_clears_row :
  values fading_table !! 0%nat = Some [9 # 10; 1 # 2; 0]%Q /\
  (t <- alloc fading_table ;; _force_mag_monotonicity t) ∅
  = (Ok 0%nat, {[ 0%nat := set_values fading_table fading_enforced ]}) /\
  fading_enforced !! 0%nat = Some [0; 0; 0]%Q.
Proof. repeat split. Qed.

(** C5, on [rising_table]: the table holds fractions only and the
    constructor succeeds, yet at depth 26 the query at magnitude 26 and
    redshift 2 returns 1.3, above the bound of 1 that the comment in
    [__call__] and the repository's test expect. *)
Lemma call_exceeds_one :
  __init__ linear_interpolator [single_file u_file rising_table] "u" 26 ∅
  = (Ok rising_estimator, rising_store) /\
  Forall (Forall (fun v => (0 <= v <= 1)%Q)) (values rising_table) /\
  __call__ rising_estimator (Scalar 26) (Scalar 2) rising_store
  = (Ok (Scalar (520 # 400)), rising_store) /\
  ~ (520 # 400 <= 1)%Q.
Proof.
  split; [reflexivity|]. split; [|split; [reflexivity|]].
  - repeat constructor; unfold Qle; simpl; lia.
  - unfold Qle. simpl. lia.
Qed.

(** C7, as stated, fails: the exception raised for a band without a file is
    a [ValueError]. *)
Lemma init_raises_value_error :
  exists e,
    __init__ linear_interpolator [single_file u_file rising_table] "g" 26 ∅
    = (Raise e, ∅) /\
    exn_class e = "ValueError" /\
    exn_class e <> "TableNotFoundError".
Proof. eexists. split; [reflexivity|]. split; [reflexivity | discriminate]. Qed.

(** C8, as stated, fails: a magnitude array of shape (1,) against a redshift
    array of shape (3,) is broadcast, and three values come back. *)
Lemma call_broadcasts_unequal_shapes :
  ~ same_shape (Array1 [26]%Q) (Array1 [0; 1; 2]%Q) /\
  __call__ rising_estimator (Array1 [26]%Q) (Array1 [0; 1; 2]%Q) rising_store
  = (Ok (Array1 [200 # 400; 360 # 400; 520 # 400]%Q), rising_store).
Proof. split; [discriminate | reflexivity]. Qed.

(** ** The theorems at concrete inputs *)

(** The primitive on [near_peak]. *)
Lemma force_unimodality_running_maxima_witness :
  match _force_unimodality near_peak with
  | Ok r =>
      exists top,
        np_max (forward_max near_peak) = Ok top /\
        length r = length near_peak /\
        forall i f b,
          forward_max near_peak !! i = Some f ->
          backward_max near_peak !! i = Some b ->
          r !! i = Some (if isclose f top then b else f)
  | Raise e => near_peak = []
  end.
Proof. exact (force_unimodality_running_maxima near_peak). Defined.


(** The value returned at depth 26, magnitude 26 and redshift 2. *)
Lemma call_values_bounded_witness :
  __call__ rising_estimator (Scalar 26) (Scalar 2) rising_store
  = (Ok (Scalar (520 # 400)), rising_store) /\
  (0 <= 520 # 400)%Q.
Proof.
  split; [reflexivity|].
  apply (call_values_bounded rising_estimator (Scalar 26) (Scalar 2)
           rising_store rising_store (Scalar (520 # 400)) eq_refl (520 # 400)%Q).
  apply list_elem_of_here.
Defined.

(** Magnitudes -100 and -90 at depth 26, as in the repository's test. *)
Lemma bright_queries_agree_witness :
  Index_min (columns rising_table) = Ok 0%Q /\
  same_shape (Scalar (-100)) (Scalar (-90)) /\
  __call__ rising_estimator (Scalar (-100)) (Array1 [0; 1; 2]%Q) rising_store
  = (Ok (Array1 [200 # 400; 360 # 400; 520 # 400]%Q), rising_store) /\
  __call__ rising_estimator (Scalar (-100)) (Array1 [0; 1; 2]%Q) rising_store
  = __call__ rising_estimator (Scalar (-90)) (Array1 [0; 1; 2]%Q) rising_store.
Proof.
  split; [reflexivity|]. split; [reflexivity|]. split; [reflexivity|].
  apply (bright_queries_agree linear_interpolator [single_file u_file rising_table]
           "u" 26 ∅ rising_store rising_table rising_estimator 0
           (Scalar (-100)) (Scalar (-90)) (Array1 [0; 1; 2]%Q)
           eq_refl rising_table_rectangular rising_estimator_built eq_refl eq_refl).
  - intros x Hx. apply list_elem_of_singleton in Hx as ->. unfold Qle. simpl. lia.
  - intros x Hx. apply list_elem_of_singleton in Hx as ->. unfold Qle. simpl. lia.
Defined.

(** Band [g] when the only directory holds the file of band [u]. *)
Lemma init_without_table_witness :
  Forall (fun d : directory => d (table_file "g") = None)
    [single_file u_file rising_table] /\
  __init__ linear_interpolator [single_file u_file rising_table] "g" 26 ∅
  = (Raise (ValueError (not_found_message "g")), ∅).
Proof.
  assert (H : Forall (fun d : directory => d (table_file "g") = None)
                [single_file u_file rising_table])
    by (repeat constructor).
  split; [exact H|].
  exact (init_without_table linear_interpolator _ "g" 26 ∅ H).
Defined.

(** Shapes (2,) against (3,) are rejected; (1,) against (3,) is answered. *)
Lemma call_shape_mismatch_witness :
  (exists msg,
     __call__ rising_estimator (Array1 [26; 27]%Q) (Array1 [0; 1; 2]%Q) rising_store
     = (Raise (ValueError msg), rising_store)) /\
  (exists r,
     __call__ rising_estimator (Array1 [26]%Q) (Array1 [0; 1; 2]%Q) rising_store
     = (Ok r, rising_store)).
Proof.
  assert (Hcols : columns rising_table <> []) by discriminate.
  split.
  - apply (call_shape_mismatch linear_interpolator [single_file u_file rising_table]
             "u" 26 ∅ rising_store rising_table rising_estimator
             (Array1 [26; 27]%Q) (Array1 [0; 1; 2]%Q)
             eq_refl rising_table_rectangular Hcols rising_estimator_built).
    unfold broadcastable, compatible. simpl. lia.
  - apply (call_shape_mismatch linear_interpolator [single_file u_file rising_table]
             "u" 26 ∅ rising_store rising_table rising_estimator
             (Array1 [26]%Q) (Array1 [0; 1; 2]%Q)
             eq_refl rising_table_rectangular Hcols rising_estimator_built).
    + unfold broadcastable, compatible, height. simpl. lia.
    + repeat constructor.
    + repeat constructor.
    + split; unfold height; simpl; lia.
    + split; unfold height; simpl; lia.
Defined.

(** The assignments of the repository's test, on a built estimator. *)
Lemma band_and_depth_read_only_witness :
  __init__ linear_interpolator [single_file u_file rising_table] "u" 26 ∅
  = (Ok rising_estimator, rising_store) /\
  fget band rising_estimator = "u" /\
  fget m5_det rising_estimator = 26%Q /\
  (exists msg,
     property_set "band" band rising_estimator (PyStr "fake")
     = Raise (AttributeError msg)) /\
  (exists msg,
     property_set "m5_det" m5_det rising_estimator (PyFloat (-99))
     = Raise (AttributeError msg)).
Proof.
  split; [exact rising_estimator_built|].
  destruct (band_and_depth_read_only linear_interpolator
              [single_file u_file rising_table] "u" 26 ∅ rising_store
              rising_estimator rising_estimator_built) as (Hb & Hd & Hset).
  split; [exact Hb|]. split; [exact Hd|].
  split; [exact (proj1 (Hset (PyStr "fake"))) | exact (proj2 (Hset (PyFloat (-99))))].
Defined.

(** Construction from [near_peak_table]: the grid in the store is not the
    grid that was loaded. *)
Lemma init_shares_table_witness :
  values near_peak_table <> near_peak_stored /\
  table near_peak_estimator = table0 near_peak_estimator /\
  exists v,
    enforce near_peak_table = Ok v /\
    ({[ 0%nat := set_values near_peak_table near_peak_stored ]} : heap)
    = <[table0 near_peak_estimator := set_values near_peak_table v]> ∅.
Proof.
  split; [discriminate|].
  destruct (init_shares_table linear_interpolator
              [single_file u_file near_peak_table] "u" 26 ∅
              {[ 0%nat := set_values near_peak_table near_peak_stored ]}
              near_peak_table near_peak_estimator
              eq_refl near_peak_table_rectangular near_peak_estimator_built)
    as (Hsame & _ & v & Hv & Hh & _).
  split; [exact Hsame|]. exists v. split; assumption.
Defined.

(** * Further properties of the code *)

(** ** Numbers that are equal as rationals *)

Lemma isclose_proper x x' t t' :
  (x == x')%Q -> (t == t')%Q -> isclose x t = isclose x' t'.
Proof.
  intros Ex Et. unfold isclose.
  assert (E1 : (Qabs (x - t) == Qabs (x' - t'))%Q) by now rewrite Ex, Et.
  assert (E2 : (atol + rtol * Qabs t == atol + rtol * Qabs t')%Q) by now rewrite Et.
  destruct (Qle_bool (Qabs (x - t)) _) eqn:A, (Qle_bool (Qabs (x' - t')) _) eqn:B;
    try reflexivity.
  - apply Qle_bool_iff in A. rewrite E1, E2 in A. apply Qle_bool_iff in A. congruence.
  - apply Qle_bool_iff in B. rewrite <- E1, <- E2 in B. apply Qle_bool_iff in B.
    congruence.
Qed.

(** On an array that never rises, the backward running maximum is the array
    itself; on one that never falls, so is the forward one. *)
Lemma backward_max_of_nonincreasing l i b x :
  nonincreasing l -> backward_max l !! i = Some b -> l !! i = Some x -> (b == x)%Q.
Proof.
  intros Hl Hb Hx. apply Qle_antisym.
  - destruct (backward_max_attained _ _ _ Hb) as (k & Hk & Hlk).
    apply (Hl i k x b Hk Hx Hlk).
  - eapply backward_max_ge; eauto.
Qed.

Lemma forward_max_of_nondecreasing l i f x :
  nondecreasing l -> forward_max l !! i = Some f -> l !! i = Some x -> (f == x)%Q.
Proof.
  intros Hl Hf Hx. apply Qle_antisym.
  - destruct (forward_max_attained _ _ _ Hf) as (k & Hk & Hlk).
    apply (Hl k i f x Hk Hlk Hx).
  - eapply forward_max_ge; eauto.
Qed.

(** ** [_force_unimodality]: what it keeps *)

(** X1: the primitive keeps the length of its input and returns nothing but
    entries of its input: whatever bounds the input, bounds the output. *)
Theorem force_unimodality_selects a r :
  _force_unimodality a = Ok r ->
  length r = length a /\
  (forall v, v ∈ r -> v ∈ a) /\
  (forall lo hi, Forall (fun v => (lo <= v <= hi)%Q) a ->
                 Forall (fun v => (lo <= v <= hi)%Q) r).
Proof.
  intros Hr. split; [eapply force_unimodality_length; eauto|]. split.
  - intros v. eapply force_unimodality_elements; eauto.
  - intros lo hi. eapply force_unimodality_Forall; eauto.
Qed.

Lemma force_unimodality_selects_witness :
  _force_unimodality near_peak = Ok [1 # 2; 1 # 2]%Q /\
  length [1 # 2; 1 # 2]%Q = length near_peak.
Proof.
  split; [reflexivity|].
  exact (proj1 (force_unimodality_selects near_peak [1 # 2; 1 # 2]%Q eq_refl)).
Defined.

(** The shape of the primitive's output around the first position [p] whose
    forward maximum is close to the top. *)
Lemma blend_split a top :
  np_max a = Ok top ->
  exists p,
    (forall i x, (i < p)%nat ->
       blend top (forward_max a) (backward_max a) !! i = Some x ->
       forward_max a !! i = Some x /\ isclose x top = false) /\
    (forall i x, (p <= i)%nat ->
       blend top (forward_max a) (backward_max a) !! i = Some x ->
       backward_max a !! i = Some x) /\
    (exists b, blend top (forward_max a) (backward_max a) !! p = Some b /\
               (b == top)%Q).
Proof.
  intros Htop. destruct (first_close a top Htop) as (p & f & Hfind).
  pose proof (blend_peak a top Htop p f Hfind) as Hpeak.
  apply list_find_Some in Hfind as (Hf & Hc & Hfirst).
  exists p. split; [|split; [|exact Hpeak]].
  - intros i x Hi (fx & bx & Hfx & Hbx & ->)%blend_lookup.
    destruct (isclose fx top) eqn:E; [exfalso; eapply Hfirst; eauto|].
    split; [assumption | exact E].
  - intros i x Hi (fx & bx & Hfx & Hbx & ->)%blend_lookup.
    now rewrite (close_upward a top Htop p i f fx Hf Hfx Hi Hc).
Qed.

(** X2: running the primitive on its own output changes no number. *)
Theorem force_unimodality_idempotent a r :
  _force_unimodality a = Ok r ->
  exists r', _force_unimodality r = Ok r' /\ Forall2 Qeq r' r.
Proof.
  intros (top & Htop & ->)%force_unimodality_inv.
  set (r := blend top (forward_max a) (backward_max a)).
  destruct (blend_max a top Htop) as (top' & Htop' & Etop). fold r in Htop'.
  destruct (blend_split a top Htop) as (p & Hbefore & Hafter & bp & Hbp & Ebp).
  fold r in Hbefore, Hafter, Hbp.
  rewrite (force_unimodality_blend r top' Htop'). eexists; split; [reflexivity|].
  apply Forall2_same_length_lookup_2; [now rewrite length_blend|].
  intros i y x (f' & b' & Hf' & Hb' & ->)%blend_lookup Hx.
  destruct (Nat.lt_ge_cases i p) as [Hi | Hi].
  - destruct (Hbefore i x Hi Hx) as [Hfx Hfar].
    assert (Ef : (f' == x)%Q).
    { apply Qle_antisym; [|eapply forward_max_ge; eauto].
      destruct (forward_max_attained _ _ _ Hf') as (k & Hk & Hrk).
      destruct (Hbefore k f' ltac:(lia) Hrk) as [Hfk _].
      apply (forward_max_nondecreasing a k i f' x Hk Hfk Hfx). }
    rewrite (isclose_proper f' x top' top Ef Etop), Hfar. exact Ef.
  - pose proof (Hafter i x Hi Hx) as Hbx.
    assert (Ec : isclose f' top' = true).
    { apply isclose_eq, Qle_antisym; [eapply forward_max_le_top; eauto|].
      rewrite Etop, <- Ebp. eapply forward_max_ge; eauto. }
    rewrite Ec. apply Qle_antisym; [|eapply backward_max_ge; eauto].
    destruct (backward_max_attained _ _ _ Hb') as (k & Hk & Hrk).
    pose proof (Hafter k b' ltac:(lia) Hrk) as Hbk.
    apply (backward_max_nonincreasing a i k x b' Hk Hbx Hbk).
Qed.

Lemma force_unimodality_idempotent_witness :
  _force_unimodality [1; 3; 2; 5; 4; 5; 1; 2; 0]%Q
  = Ok [1; 3; 3; 5; 5; 5; 2; 2; 0]%Q /\
  exists r', _force_unimodality [1; 3; 3; 5; 5; 5; 2; 2; 0]%Q = Ok r' /\
             Forall2 Qeq r' [1; 3; 3; 5; 5; 5; 2; 2; 0]%Q.
Proof.
  split; [reflexivity|].
  exact (force_unimodality_idempotent [1; 3; 2; 5; 4; 5; 1; 2; 0]%Q
           [1; 3; 3; 5; 5; 5; 2; 2; 0]%Q eq_refl).
Defined.

(** X3: an array that never rises comes back from the primitive with every
    number unchanged. *)
Theorem force_unimodality_of_nonincreasing a :
  nonincreasing a -> a <> [] ->
  exists r, _force_unimodality a = Ok r /\ Forall2 Qeq r a.
Proof.
  intros Hdown Ha. destruct (np_max_nonempty a Ha) as [top Htop].
  rewrite (force_unimodality_blend a top Htop). eexists; split; [reflexivity|].
  apply Forall2_same_length_lookup_2; [apply length_blend|].
  intros i y x (f & b & Hf & Hb & ->)%blend_lookup Hx.
  assert (Ec : isclose f top = true).
  { apply isclose_eq, Qle_antisym; [eapply forward_max_le_top; eauto|].
    destruct (top_position _ _ Htop) as [q Hq].
    destruct (lookup_lt_is_Some_2 a 0%nat) as [x0 Hx0].
    { destruct a; [congruence | simpl; lia]. }
    apply Qle_trans with x0.
    - apply (Hdown 0%nat q x0 top); [lia | assumption | assumption].
    - eapply forward_max_ge; eauto. lia. }
  rewrite Ec. eapply backward_max_of_nonincreasing; eauto.
Qed.

Lemma force_unimodality_of_nonincreasing_witness :
  exists r, _force_unimodality [9 # 10; 1 # 2; 3 # 10]%Q = Ok r /\
            Forall2 Qeq r [9 # 10; 1 # 2; 3 # 10]%Q.
Proof.
  apply force_unimodality_of_nonincreasing; [|discriminate].
  intros i j x y Hij Hx Hy.
  destruct i as [|[|[|i]]], j as [|[|[|j]]]; simpl in *; try discriminate; try lia;
    injection Hx as <-; injection Hy as <-; unfold Qle; simpl; lia.
Defined.

(** ** [_force_mag_monotonicity] on a table in the store *)

Lemma close_to_zero_nowhere row :
  existsb (fun x => isclose x 0) row = false ->
  forall x, x ∈ row -> isclose x 0 = false.
Proof.
  intros H x Hx. destruct (isclose x 0) eqn:E; [|reflexivity].
  assert (existsb (fun x => isclose x 0) row = true); [|congruence].
  apply existsb_exists. exists x. split; [now apply list_elem_of_In | exact E].
Qed.

Lemma close_to_zero_somewhere row x :
  x ∈ row -> isclose x 0 = true -> existsb (fun x => isclose x 0) row = true.
Proof.
  intros Hx E. apply existsb_exists. exists x.
  split; [now apply list_elem_of_In | exact E].
Qed.

Lemma mag_row_selects (P : Q -> Prop) row :
  P 0%Q -> Forall P row -> Forall P (mag_row row).
Proof.
  intros H0 Hrow. unfold mag_row. destruct (existsb _ row).
  - now apply Forall_replicate.
  - apply Forall_lookup. intros i b Hb.
    destruct (backward_max_attained _ _ _ Hb) as (k & _ & Hk).
    eapply Forall_lookup_1; eauto.
Qed.

Lemma mag_row_idempotent row : Forall2 Qeq (mag_row (mag_row row)) (mag_row row).
Proof.
  apply Forall2_same_length_lookup_2; [apply length_mag_row|].
  intros i y x Hy Hx.
  destruct (existsb (fun x => isclose x 0) row) eqn:Erow.
  - replace (mag_row row) with (replicate (length row) 0%Q) in Hx, Hy
      by (unfold mag_row; now rewrite Erow).
    unfold mag_row in Hy.
    apply lookup_replicate in Hx as [-> Hi].
    rewrite (close_to_zero_somewhere (replicate (length row) 0%Q) 0%Q) in Hy.
    + apply lookup_replicate in Hy as [-> _]. reflexivity.
    + apply list_elem_of_lookup. exists i. now apply lookup_replicate.
    + reflexivity.
  - replace (mag_row row) with (backward_max row) in Hx, Hy
      by (unfold mag_row; now rewrite Erow).
    unfold mag_row in Hy.
    assert (Efar : existsb (fun x => isclose x 0) (backward_max row) = false).
    { destruct (existsb _ (backward_max row)) eqn:E; [|reflexivity].
      apply existsb_exists in E as (b & Hb%list_elem_of_In & Hc).
      apply list_elem_of_lookup_1 in Hb as (k & Hk).
      destruct (backward_max_attained _ _ _ Hk) as (k' & _ & Hk').
      rewrite (close_to_zero_nowhere row Erow b) in Hc; [discriminate|].
      eapply list_elem_of_lookup_2; eauto. }
    rewrite Efar in Hy.
    eapply backward_max_of_nonincreasing; eauto. apply backward_max_nonincreasing.
Qed.

(** X4: on a rectangular table the magnitude pass never raises and returns the
    reference it was given; a row with an entry close to zero is zero
    everywhere afterwards, any other row is its backward running maximum;
    the labels and every other object of the store are as before. *)
Theorem force_mag_monotonicity_on_store (h : heap) r df :
  h !! r = Some df -> rectangular df ->
  exists v,
    _force_mag_monotonicity r h = (Ok r, <[r := set_values df v]> h) /\
    length v = length (values df) /\
    forall i row, values df !! i = Some row ->
      v !! i = Some (if existsb (fun x => isclose x 0) row
                     then replicate (length row) 0%Q
                     else backward_max row).
Proof.
  intros Hdf Hrect. exists (map mag_row (values df)).
  split; [|split].
  - rewrite <- (insert_id h r df Hdf) at 1.
    now apply force_mag_monotonicity_run.
  - apply length_map.
  - intros i row Hrow. rewrite list_lookup_fmap, Hrow. reflexivity.
Qed.

(** X5: after the magnitude pass on a rectangular table, the table is still
    rectangular, every row is non-increasing, and every number in it is
    zero or a number the same row held before. *)
Theorem force_mag_monotonicity_rows (h h' : heap) r r' df :
  h !! r = Some df -> rectangular df ->
  _force_mag_monotonicity r h = (Ok r', h') ->
  exists df',
    h' !! r = Some df' /\ rectangular df' /\
    index df' = index df /\ columns df' = columns df /\
    Forall nonincreasing (values df') /\
    forall i row row' x, values df !! i = Some row -> values df' !! i = Some row' ->
      x ∈ row' -> x = 0%Q \/ x ∈ row.
Proof.
  intros Hdf Hrect Hrun.
  rewrite <- (insert_id h r df Hdf) in Hrun.
  rewrite (force_mag_monotonicity_run r h df Hrect) in Hrun.
  injection Hrun as _ <-.
  exists (set_values df (map mag_row (values df))).
  split; [apply lookup_insert_eq|]. split; [|split; [reflexivity|split; [reflexivity|split]]].
  - destruct (mag_rows_grid df Hrect) as [Hlen Hrows]. split; assumption.
  - simpl. apply Forall_fmap, Forall_forall. intros row _. apply mag_row_nonincreasing.
  - simpl. intros i row row' x Hrow Hrow' Hx.
    rewrite list_lookup_fmap, Hrow in Hrow'. injection Hrow' as <-.
    pose proof (mag_row_selects (fun x => x = 0%Q \/ x ∈ row) row) as Hsel.
    rewrite !Forall_forall in Hsel. apply Hsel; auto.
Qed.

(** X6: a second run of the magnitude pass changes no number of the table. *)
Theorem force_mag_monotonicity_twice (h : heap) r df :
  h !! r = Some df -> rectangular df ->
  exists h1 h2 df1 df2,
    _force_mag_monotonicity r h = (Ok r, h1) /\
    _force_mag_monotonicity r h1 = (Ok r, h2) /\
    h1 !! r = Some df1 /\ h2 !! r = Some df2 /\
    Forall2 (Forall2 Qeq) (values df2) (values df1).
Proof.
  intros Hdf Hrect.
  set (df1 := set_values df (map mag_row (values df))).
  assert (Hrect1 : rectangular df1).
  { destruct (mag_rows_grid df Hrect) as [Hlen Hrows]. split; assumption. }
  exists (<[r := df1]> h), (<[r := set_values df1 (map mag_row (values df1))]> h),
    df1, (set_values df1 (map mag_row (values df1))).
  split; [|split; [|split; [|split]]].
  - rewrite <- (insert_id h r df Hdf) at 1. now apply force_mag_monotonicity_run.
  - now apply force_mag_monotonicity_run.
  - apply lookup_insert_eq.
  - apply lookup_insert_eq.
  - simpl. apply Forall2_fmap_l, Forall2_fmap_l, Forall2_fmap_r.
    apply Forall_Forall2_diag, Forall_forall. intros row _. apply mag_row_idempotent.
Qed.

(** ** [_force_z_unimodality] on a table in the store *)

Lemma rectangular_grid df :
  rectangular df -> grid_of (length (index df)) (length (columns df)) (values df).
Proof. intros [Hlen Hrows]. split; [exact Hlen | exact Hrows]. Qed.

Lemma unimodal_cols_return h w c :
  (1 <= h)%nat -> grid_of h w c ->
  exists v, for_fold (seq 0 w) unimodal_col c = Ok v /\ grid_of h w v.
Proof.
  intros Hh Hgrid.
  apply (for_fold_total (grid_of h w) unimodal_col (seq 0 w)); [|exact Hgrid].
  intros j b Hj%elem_of_seq Hb. apply unimodal_col_returns; [lia | lia | exact Hb].
Qed.

(** X7: on a rectangular table with at least one row the unimodality pass
    returns the reference it was given; every column of the table is
    replaced by the primitive's output for that column, no other column
    taking part; the shape, the labels and every other object of the store
    are as before. *)
Theorem force_z_unimodality_on_store (h : heap) r df :
  h !! r = Some df -> rectangular df -> values df <> [] ->
  exists v,
    _force_z_unimodality r h = (Ok r, <[r := set_values df v]> h) /\
    grid_of (length (index df)) (length (columns df)) v /\
    forall j, (j < length (columns df))%nat ->
      exists col new,
        mapM (.!! j) (values df) = Some col /\
        _force_unimodality col = Ok new /\
        mapM (.!! j) v = Some new.
Proof.
  intros Hdf Hrect Hrows.
  pose proof (rectangular_grid df Hrect) as Hgrid.
  assert (Hh : (1 <= length (index df))%nat).
  { destruct Hrect as [<- _]. destruct (values df); [congruence | simpl; lia]. }
  destruct (unimodal_cols_return _ _ _ Hh Hgrid) as (v & Hv & Hgv).
  destruct (force_z_unimodality_run r h df) as (reached & Hrun & Hok).
  rewrite Hv in Hrun. rewrite (Hok v Hv) in Hrun.
  exists v. split; [|split; [exact Hgv|]].
  - rewrite <- (insert_id h r df Hdf) at 1. exact Hrun.
  - intros j Hj.
    destruct (unimodal_cols_result _ _ _ 0%nat _ _ Hgrid (Nat.le_refl _) Hv)
      as (_ & _ & Hin).
    apply Hin. lia.
Qed.

Lemma z_pass_without_rows (h0 : heap) r df :
  values df = [] -> columns df <> [] ->
  exists msg,
    _force_z_unimodality r (<[r := df]> h0) = (Raise (ValueError msg), <[r := df]> h0).
Proof.
  intros Hv Hc. destruct (columns df) as [|c cs] eqn:Ec; [congruence|].
  unfold _force_z_unimodality.
  erewrite bind_ok; [|apply shape_insert]. cbn [snd df.shape]. rewrite Ec.
  cbn [length seq for_each].
  unfold bind at 1. unfold bind at 1.
  rewrite (z_column_run r h0 df 0%nat) by (rewrite Ec; simpl; lia).
  rewrite Hv. simpl. eauto.
Qed.

(** X8: on a table that has columns but no row, the unimodality pass raises the
    [ValueError] of numpy's maximum of nothing, and the store is as before. *)
Theorem force_z_unimodality_without_rows (h : heap) r df :
  h !! r = Some df -> values df = [] -> columns df <> [] ->
  exists msg, _force_z_unimodality r h = (Raise (ValueError msg), h).
Proof.
  intros Hdf Hv Hc.
  destruct (z_pass_without_rows h r df Hv Hc) as [msg Hrun].
  exists msg. now rewrite (insert_id h r df Hdf) in Hrun.
Qed.

(** ** The constructor *)

Lemma find_table_first pre d post name :
  Forall (fun d' : directory => d' name = None) pre ->
  is_Some (d name) ->
  find_table (pre ++ d :: post) name = d name.
Proof.
  intros Hpre [parsed Hd]. induction Hpre as [|d' pre Hd' _ IH]; simpl.
  - now rewrite Hd.
  - now rewrite Hd'.
Qed.

Section MoreConstruction.

Variable RegularGridInterpolator :
  list Q -> list Q -> list (list Q) -> result (Q -> Q -> Q).

(** X9: the first directory that holds the band's file decides the outcome of
    the constructor: the directories after it are not consulted, whether the
    file parses or not. *)
Theorem init_first_match pre d post band_name depth (h : heap) :
  Forall (fun d' : directory => d' (table_file band_name) = None) pre ->
  is_Some (d (table_file band_name)) ->
  __init__ RegularGridInterpolator (pre ++ d :: post) band_name depth h
  = __init__ RegularGridInterpolator [d] band_name depth h /\
  forall e, d (table_file band_name) = Some (Raise e) ->
    __init__ RegularGridInterpolator (pre ++ d :: post) band_name depth h
    = (Raise e, h).
Proof.
  intros Hpre Hd. unfold __init__.
  rewrite (find_table_first pre d post _ Hpre Hd).
  destruct Hd as [parsed Hd]. cbn [find_table]. rewrite Hd.
  split; [reflexivity|]. intros e [= ->]. reflexivity.
Qed.

(** X10: a file that has column labels but no row makes the constructor raise
    numpy's [ValueError]: the unimodality pass takes the maximum of an empty
    column. *)
Theorem init_without_rows directories band_name depth (h : heap) loaded :
  find_table directories (table_file band_name) = Some (Ok loaded) ->
  index loaded = [] -> values loaded = [] -> columns loaded <> [] ->
  exists msg h',
    __init__ RegularGridInterpolator directories band_name depth h
    = (Raise (ValueError msg), h').
Proof.
  intros Hfind Hi Hv Hc. unfold __init__. rewrite Hfind.
  erewrite bind_ok; [|reflexivity].
  erewrite bind_ok; [|reflexivity].
  erewrite bind_ok.
  2:{ apply force_mag_monotonicity_run. split; [now rewrite Hi, Hv|].
      rewrite Hv. constructor. }
  rewrite Hv. simpl map.
  destruct (z_pass_without_rows h (fresh (dom h)) (set_values loaded []))
    as [msg Hrun]; [reflexivity | exact Hc |].
  unfold bind at 1. rewrite Hrun. eauto.
Qed.

(** X11: what a successful construction stores: a rectangular table under the
    loaded labels in which every number is zero or a number of the loaded
    table. *)
Theorem init_stored_values directories band_name depth (h h' : heap) loaded self :
  find_table directories (table_file band_name) = Some (Ok loaded) ->
  rectangular loaded ->
  __init__ RegularGridInterpolator directories band_name depth h = (Ok self, h') ->
  exists stored,
    h' !! table self = Some stored /\
    index stored = index loaded /\ columns stored = columns loaded /\
    rectangular stored /\
    forall x, x ∈ concat (values stored) ->
      x = 0%Q \/ x ∈ concat (values loaded).
Proof.
  intros Hfind Hrect Hinit.
  destruct (init_ok _ _ _ _ _ _ _ _ Hfind Hrect Hinit)
    as (v & interp & Hv & Hi & -> & ->).
  exists (set_values loaded v). simpl.
  split; [apply lookup_insert_eq|]. split; [reflexivity|]. split; [reflexivity|].
  unfold enforce in Hv.
  pose proof (unimodal_cols_result _ _ _ 0%nat _ _ (mag_rows_grid loaded Hrect)
                (Nat.le_refl _) Hv) as ([Hlen Hrows] & _ & _).
  split; [split; assumption|].
  set (P := fun x : Q => x = 0%Q \/ x ∈ concat (values loaded)).
  assert (Hall : Forall (Forall P) v).
  { eapply (for_fold_invariant _ unimodal_col); [|exact Hv|].
    { intros j b b'. apply unimodal_col_Forall. }
    apply Forall_fmap, Forall_forall. intros row Hrow. simpl.
    apply mag_row_selects; [now left|].
    apply Forall_forall. intros x Hx. right.
    apply list_elem_of_In, in_concat. exists row.
    split; now apply list_elem_of_In. }
  apply Forall_concat in Hall. rewrite Forall_forall in Hall. exact Hall.
Qed.

(** X12: after a successful construction every column of the stored table is
    unimodal along redshift. *)
Theorem init_columns_unimodal directories band_name depth (h h' : heap)
    loaded self j :
  find_table directories (table_file band_name) = Some (Ok loaded) ->
  rectangular loaded ->
  __init__ RegularGridInterpolator directories band_name depth h = (Ok self, h') ->
  (j < length (columns loaded))%nat ->
  exists stored col,
    h' !! table self = Some stored /\
    mapM (.!! j) (values stored) = Some col /\ unimodal col.
Proof.
  intros Hfind Hrect Hinit Hj.
  destruct (init_ok _ _ _ _ _ _ _ _ Hfind Hrect Hinit)
    as (v & interp & Hv & Hi & -> & ->).
  destruct (enforce_columns_unimodal loaded v j Hrect Hv Hj) as (col & Hcol & Hu).
  exists (set_values loaded v), col. simpl.
  split; [apply lookup_insert_eq|]. split; assumption.
Qed.


(** X14: two estimators built one after the other hold different tables, and
    building the second leaves the table of the first as it was. *)
Theorem init_tables_apart dirs1 band1 depth1 dirs2 band2 depth2
    (h h1 h2 : heap) loaded1 loaded2 self1 self2 :
  find_table dirs1 (table_file band1) = Some (Ok loaded1) -> rectangular loaded1 ->
  find_table dirs2 (table_file band2) = Some (Ok loaded2) -> rectangular loaded2 ->
  __init__ RegularGridInterpolator dirs1 band1 depth1 h = (Ok self1, h1) ->
  __init__ RegularGridInterpolator dirs2 band2 depth2 h1 = (Ok self2, h2) ->
  table self1 <> table self2 /\
  is_Some (h1 !! table self1) /\
  h2 !! table self1 = h1 !! table self1.
Proof.
  intros Hf1 Hr1 Hf2 Hr2 Hi1 Hi2.
  destruct (init_ok _ _ _ _ _ _ _ _ Hf1 Hr1 Hi1) as (v1 & i1 & _ & _ & -> & ->).
  destruct (init_ok _ _ _ _ _ _ _ _ Hf2 Hr2 Hi2) as (v2 & i2 & _ & _ & -> & ->).
  simpl. set (r1 := fresh (dom h)).
  set (h1 := <[r1 := set_values loaded1 v1]> h).
  assert (Hin : is_Some (h1 !! r1)) by (unfold h1; rewrite lookup_insert_eq; eauto).
  assert (Hne : r1 <> fresh (dom h1)).
  { intros E. apply (is_fresh (dom h1)). apply elem_of_dom.
    destruct Hin as [df Hdf]. exists df.
    exact (eq_ind r1 (fun k : nat => h1 !! k = Some df) Hdf _ E). }
  split; [exact Hne|]. split; [exact Hin|].
  now apply lookup_insert_ne.
Qed.

End MoreConstruction.

(** ** Queries *)

Lemma force_singleton x : _force_unimodality [x] = Ok [x].
Proof.
  rewrite (force_unimodality_blend [x] x eq_refl). simpl.
  now destruct (isclose x x).
Qed.

(** X15: a query reads the table and writes nothing: whatever it returns or
    raises, the store is as before. *)
Theorem call_leaves_store self m z (h : heap) :
  snd (__call__ self m z h) = h.
Proof.
  unfold __call__, bind, on_object, lift, ret.
  destruct (h !! table self) as [df|] eqn:Hdf; [|reflexivity].
  cbv beta iota. rewrite (insert_id h _ _ Hdf).
  destruct (Index_min (columns df)) as [lo|]; [|reflexivity]. cbv beta iota.
  destruct (evaluate _ z _) as [c|]; [|reflexivity]. cbv beta iota.
  destruct (for_fold _ unimodal_row _) as [by_rows|]; [|reflexivity]. cbv beta iota.
  destruct (for_fold _ unimodal_col _) as [by_cols|]; reflexivity.
Qed.

(** The steps of a query that returned. *)
Lemma call_inv self m z (h h' : heap) r :
  __call__ self m z h = (Ok r, h') ->
  exists df lo c by_rows by_cols,
    h !! table self = Some df /\
    Index_min (columns df) = Ok lo /\
    evaluate (_interpolator self) z
      (nd_map (fun x => fmax x lo)
         (nd_map (fun x => (x - fget m5_det self)%Q) m)) = Ok c /\
    for_fold (seq 0 (height c)) unimodal_row
      (map (map (fun x => fmax x 0)) (rows c)) = Ok by_rows /\
    for_fold (seq 0 (width c)) unimodal_col by_rows = Ok by_cols /\
    r = squeeze {| width := width c; rows := by_cols |}.
Proof.
  unfold __call__, bind, on_object, lift, ret.
  destruct (h !! table self) as [df|] eqn:Hdf; [|discriminate].
  cbv beta iota.
  destruct (Index_min (columns df)) as [lo|] eqn:Hlo; [|discriminate]. cbv beta iota.
  destruct (evaluate _ z _) as [c|] eqn:Hc; [|discriminate]. cbv beta iota.
  destruct (for_fold _ unimodal_row _) as [by_rows|] eqn:Hr; [|discriminate].
  cbv beta iota.
  destruct (for_fold _ unimodal_col _) as [by_cols|] eqn:Hcs; [|discriminate].
  intros [= <- _]. exists df, lo, c, by_rows, by_cols. auto 10.
Qed.

(** X16: a query at a single point returns the interpolator's value at the
    redshift and the clipped offset, clipped from below at zero: on one
    value the unimodality passes change nothing. *)
Theorem call_single_point self m z (h : heap) df lo :
  h !! table self = Some df ->
  Index_min (columns df) = Ok lo ->
  __call__ self (Scalar m) (Scalar z) h
  = (Ok (Scalar (fmax (_interpolator self z (fmax (m - fget m5_det self) lo)) 0)), h).
Proof.
  intros Hdf Hlo. unfold __call__, bind, on_object, lift, ret.
  rewrite Hdf. cbv beta iota. rewrite Hlo. cbv beta iota.
  rewrite (insert_id h _ _ Hdf).
  cbn [nd_map evaluate atleast_2d height width rows length broadcast_dim rbind].
  simpl.
  assert (Hif : forall (b : bool) (v : Q), (if b then v else v) = v)
    by (intros []; reflexivity).
  rewrite !Hif. reflexivity.
Qed.

Lemma call_single_point_witness :
  Index_min (columns rising_table) = Ok 0%Q /\
  __call__ rising_estimator (Scalar 26) (Scalar 2) rising_store
  = (Ok (Scalar (fmax (_interpolator rising_estimator 2
                         (fmax (26 - fget m5_det rising_estimator) 0)) 0)),
     rising_store).
Proof.
  split; [reflexivity|].
  exact (call_single_point rising_estimator 26 2 rising_store rising_table 0
           eq_refl eq_refl).
Defined.

(** X17: a query whose redshift array is empty raises numpy's [ValueError]
    instead of returning an empty array: the row pass takes the maximum of
    an empty row. *)
Theorem call_without_redshifts self m x (h : heap) df :
  h !! table self = Some df -> columns df <> [] ->
  m ∈ [Scalar x; Array1 [x]; Array1 []] ->
  exists msg, __call__ self m (Array1 []) h = (Raise (ValueError msg), h).
Proof.
  intros Hdf Hcols Hm.
  destruct (columns df) as [|c0 cs] eqn:Ec; [congruence|].
  unfold __call__, bind, on_object, lift, ret.
  rewrite Hdf. cbv beta iota. rewrite Ec. cbn [Index_min]. cbv beta iota.
  rewrite (insert_id h _ _ Hdf).
  repeat (apply elem_of_cons in Hm as [-> | Hm]); [| | | inversion Hm];
    simpl; eauto.
Qed.

Lemma call_without_redshifts_witness :
  exists msg,
    __call__ rising_estimator (Scalar 26) (Array1 []) rising_store
    = (Raise (ValueError msg), rising_store).
Proof.
  apply (call_without_redshifts rising_estimator (Scalar 26) 26 rising_store
           rising_table eq_refl).
  - discriminate.
  - apply list_elem_of_here.
Defined.

Lemma unimodal_row_grid h w i c c' :
  grid_of h w c -> unimodal_row i c = Ok c' -> grid_of h w c'.
Proof.
  intros [Hlen Hrows]. unfold unimodal_row.
  destruct (c !! i) as [row|] eqn:Hrow; [|discriminate].
  destruct (_force_unimodality row) as [new|] eqn:Hnew; [|discriminate].
  simpl. intros [= <-]. split; [now rewrite length_insert|].
  apply Forall_insert; [assumption|].
  rewrite (force_unimodality_length _ _ Hnew).
  eapply Forall_lookup_1 in Hrows; eauto.
Qed.

(** The loop over rows [k], ..., [k + n - 1]. *)
Lemma unimodal_rows_result h w n : forall k c c',
  grid_of h w c ->
  for_fold (seq k n) unimodal_row c = Ok c' ->
  grid_of h w c' /\
  (forall i, (i < k)%nat \/ (k + n <= i)%nat -> c' !! i = c !! i) /\
  (forall i, (k <= i < k + n)%nat ->
     exists row new,
       c !! i = Some row /\ _force_unimodality row = Ok new /\ c' !! i = Some new).
Proof.
  induction n as [|n IH]; intros k c c' Hgrid; simpl.
  - intros [= <-]. split; [assumption|]. split; [reflexivity | intros i Hi; lia].
  - destruct (unimodal_row k c) as [c1|] eqn:Hc1; [|discriminate]. simpl.
    intros Hrest.
    pose proof (unimodal_row_grid _ _ _ _ _ Hgrid Hc1) as Hgrid1.
    destruct (IH (S k) c1 c' Hgrid1 Hrest) as (Hgrid' & Hout & Hin).
    unfold unimodal_row in Hc1.
    destruct (c !! k) as [row|] eqn:Hrow; [|discriminate].
    destruct (_force_unimodality row) as [new|] eqn:Hnew; [|discriminate].
    simpl in Hc1. injection Hc1 as <-.
    split; [assumption|]. split.
    + intros i Hi. rewrite Hout by lia. apply list_lookup_insert_ne. lia.
    + intros i Hi. destruct (decide (i = k)) as [-> | Hne].
      * exists row, new. split; [assumption|]. split; [assumption|].
        rewrite Hout by lia. apply list_lookup_insert_eq.
        eapply lookup_lt_Some; eauto.
      * destruct (Hin i ltac:(lia)) as (row' & new' & Hrow' & Hnew' & Hc').
        exists row', new'. split; [|split; assumption].
        rewrite <- Hrow'. symmetry. apply list_lookup_insert_ne. lia.
Qed.

(** On a grid of one row the column pass changes nothing. *)
Lemma unimodal_col_one_row j row c' :
  unimodal_col j [row] = Ok c' -> c' = [row].
Proof.
  unfold unimodal_col. simpl. destruct (row !! j) as [x|] eqn:Hx; [|discriminate].
  simpl.
  assert (Hif : forall (b : bool) (v : Q), (if b then v else v) = v)
    by (intros []; reflexivity).
  rewrite !Hif. intros [= <-]. now rewrite list_insert_id.
Qed.

Lemma column_of_singletons (c : list (list Q)) :
  Forall (fun row => length row = 1%nat) c -> mapM (.!! 0%nat) c = Some (concat c).
Proof.
  induction 1 as [|row c Hrow _ IH]; [reflexivity|].
  destruct row as [|x [|y row]]; try discriminate.
  simpl. rewrite IH. reflexivity.
Qed.

Lemma evaluate_grid f z dm c :
  well_shaped z -> well_shaped dm -> evaluate f z dm = Ok c ->
  exists h w,
    broadcast_dim (height (atleast_2d z)) (height (atleast_2d dm)) = Ok h /\
    broadcast_dim (width (atleast_2d z)) (width (atleast_2d dm)) = Ok w /\
    width c = w /\ grid_of h w (rows c).
Proof.
  intros Hz Hd Hc.
  assert (Hb : broadcastable z dm).
  { unfold evaluate in Hc.
    destruct (broadcast_dim (height _) _) as [h|] eqn:Eh; [|discriminate].
    destruct (broadcast_dim (width _) _) as [w|] eqn:Ew; [|discriminate].
    apply broadcast_dim_ok in Eh, Ew. unfold broadcastable, compatible. lia. }
  destruct (evaluate_returns f z dm Hz Hd Hb) as (h & w & c0 & Eh & Ew & Ec & Hgrid).
  rewrite Ec in Hc. injection Hc as <-. exists h, w. auto.
Qed.

(** The grid behind the answer of a query on well-shaped arguments. *)
Lemma call_grid self m z (h h' : heap) r :
  well_shaped m -> well_shaped z ->
  __call__ self m z h = (Ok r, h') ->
  exists hh w by_rows by_cols,
    broadcast_dim (height (atleast_2d z)) (height (atleast_2d m)) = Ok hh /\
    broadcast_dim (width (atleast_2d z)) (width (atleast_2d m)) = Ok w /\
    grid_of hh w by_rows /\ grid_of hh w by_cols /\
    (forall i, (i < hh)%nat -> exists row, by_rows !! i = Some row /\ unimodal row) /\
    for_fold (seq 0 w) unimodal_col by_rows = Ok by_cols /\
    r = squeeze {| width := w; rows := by_cols |}.
Proof.
  intros Hm Hz Hcall.
  destruct (call_inv _ _ _ _ _ _ Hcall)
    as (df & lo & c & by_rows & by_cols & _ & _ & Hc & Hr & Hcs & ->).
  assert (Hdm : well_shaped (nd_map (fun x => fmax x lo)
                               (nd_map (fun x => (x - fget m5_det self)%Q) m)))
    by now do 2 apply well_shaped_nd_map.
  destruct (evaluate_grid _ z _ c Hz Hdm Hc) as (hh & w & Eh & Ew & Hw & Hgrid).
  unfold height in Eh, Ew. rewrite !atleast_2d_nd_map in Eh, Ew.
  simpl in Eh, Ew. rewrite !length_map in Eh. fold (height (atleast_2d m)) in Eh.
  fold (height (atleast_2d z)) in Eh.
  assert (Hclipped : grid_of hh w (map (map (fun x => fmax x 0)) (rows c))).
  { destruct Hgrid as [Hlen Hrows]. split; [now rewrite length_map|].
    apply Forall_fmap. eapply Forall_impl; [exact Hrows|].
    intros row Hrow. simpl in *. now rewrite length_map. }
  assert (Hh : height c = hh) by (destruct Hgrid as [Hlen _]; exact Hlen).
  rewrite Hh in Hr. rewrite Hw in Hcs |- *.
  destruct (unimodal_rows_result _ _ _ 0%nat _ _ Hclipped Hr) as (Hgr & _ & Hrows).
  destruct (unimodal_cols_result _ _ _ 0%nat _ _ Hgr (Nat.le_refl _) Hcs)
    as (Hgc & _ & _).
  exists hh, w, by_rows, by_cols. repeat (split; [assumption|]).
  split; [|split; [assumption | reflexivity]].
  intros i Hi. destruct (Hrows i ltac:(lia)) as (row & new & _ & Hnew & Hi').
  exists new. split; [assumption|].
  apply force_unimodality_inv in Hnew as (top & Htop & ->).
  now apply blend_unimodal.
Qed.

(** X18: the answer of a query has the broadcast shape of its two arguments,
    with the dimensions of size one dropped. *)
Theorem call_answer_shape self m z (h h' : heap) r :
  well_shaped m -> well_shaped z ->
  __call__ self m z h = (Ok r, h') ->
  exists hh w c,
    broadcast_dim (height (atleast_2d z)) (height (atleast_2d m)) = Ok hh /\
    broadcast_dim (width (atleast_2d z)) (width (atleast_2d m)) = Ok w /\
    grid_of hh w c /\
    r = squeeze {| width := w; rows := c |} /\
    length (elements r) = (hh * w)%nat.
Proof.
  intros Hm Hz Hcall.
  destruct (call_grid _ _ _ _ _ _ Hm Hz Hcall)
    as (hh & w & by_rows & by_cols & Eh & Ew & _ & Hgc & _ & _ & ->).
  exists hh, w, by_cols. repeat (split; [assumption|]). split; [reflexivity|].
  rewrite elements_squeeze. simpl. destruct Hgc as [<- Hrows].
  clear -Hrows. induction Hrows as [|row c Hrow _ IH]; [reflexivity|].
  simpl. rewrite length_app, IH, Hrow. reflexivity.
Qed.

(** X19: a one-dimensional answer of a query is unimodal, and every column of a
    two-dimensional answer is unimodal. *)
Theorem call_unimodal self m z (h h' : heap) r :
  well_shaped m -> well_shaped z ->
  __call__ self m z h = (Ok r, h') ->
  (forall v, r = Array1 v -> unimodal v) /\
  (forall g, r = Array2 g ->
     forall j, (j < width g)%nat ->
       exists col, mapM (.!! j) (rows g) = Some col /\ unimodal col).
Proof.
  intros Hm Hz Hcall.
  destruct (call_grid _ _ _ _ _ _ Hm Hz Hcall)
    as (hh & w & by_rows & by_cols & _ & _ & Hgr & Hgc & Hrows & Hcs & ->).
  assert (Hcols : forall j, (j < w)%nat ->
            exists col, mapM (.!! j) by_cols = Some col /\ unimodal col).
  { intros j Hj.
    destruct (unimodal_cols_result _ _ _ 0%nat _ _ Hgr (Nat.le_refl _) Hcs)
      as (_ & _ & Hin).
    destruct (Hin j ltac:(lia)) as (col & new & _ & Hnew & Hcol).
    exists new. split; [assumption|].
    apply force_unimodality_inv in Hnew as (top & Htop & ->).
    now apply blend_unimodal. }
  assert (Hone : hh = 1%nat -> forall row, by_cols = [row] -> unimodal row).
  { intros -> row ->. destruct Hgr as [Hlen _].
    destruct by_rows as [|row0 [|row1 rest]]; try discriminate.
    assert (E : [row] = [row0]).
    { eapply (for_fold_invariant (fun c => c = [row0]) unimodal_col); [|exact Hcs|reflexivity].
      intros j b b' Hb ->. now apply unimodal_col_one_row in Hb. }
    injection E as ->.
    destruct (Hrows 0%nat ltac:(lia)) as (row' & [= <-] & Hu). exact Hu. }
  unfold squeeze, height. cbn [rows width]. destruct Hgc as [Hlen Hcrows].
  split.
  - intros v Hv.
    destruct (decide (hh = 1%nat)) as [-> | Hh].
    + destruct by_cols as [|row [|row1 rest]]; try discriminate.
      specialize (Hone eq_refl row eq_refl).
      simpl in Hv. rewrite app_nil_r in Hv.
      repeat case_decide; try (destruct row as [|x [|y row]]); congruence.
    + rewrite Hlen in Hv.
      destruct (decide (hh = 1%nat /\ w = 1%nat)) as [[? _]|_]; [lia|].
      destruct (decide (hh = 1%nat \/ w = 1%nat)) as [[?| ->]|_]; [lia| |discriminate].
      injection Hv as <-.
      destruct (Hcols 0%nat ltac:(lia)) as (col & Hcol & Hu).
      rewrite (column_of_singletons by_cols Hcrows) in Hcol. congruence.
  - intros g Hg j Hj. rewrite Hlen in Hg.
    repeat case_decide; try discriminate; try (destruct (concat by_cols) as [|? [|? ?]]; discriminate).
    injection Hg as <-. simpl in *. now apply Hcols.
Qed.

(** ** The further properties at concrete inputs *)

Lemma fading_table_rectangular : rectangular fading_table.
Proof. split; [reflexivity|]. repeat constructor. Qed.

Lemma force_mag_monotonicity_on_store_witness :
  exists v,
    _force_mag_monotonicity 0%nat ({[ 0%nat := fading_table ]} : heap)
    = (Ok 0%nat, <[0%nat := set_values fading_table v]> {[ 0%nat := fading_table ]}) /\
    length v = 2%nat.
Proof.
  assert (Hdf : ({[ 0%nat := fading_table ]} : heap) !! 0%nat = Some fading_table)
    by reflexivity.
  destruct (force_mag_monotonicity_on_store {[ 0%nat := fading_table ]} 0%nat
              fading_table Hdf fading_table_rectangular) as (v & Hrun & Hlen & _).
  exists v. split; [exact Hrun | exact Hlen].
Defined.

Lemma force_mag_monotonicity_rows_witness :
  exists df',
    ({[ 0%nat := set_values fading_table fading_enforced ]} : heap) !! 0%nat
    = Some df' /\
    Forall nonincreasing (values df').
Proof.
  assert (Hdf : ({[ 0%nat := fading_table ]} : heap) !! 0%nat = Some fading_table)
    by reflexivity.
  assert (Hrun : _force_mag_monotonicity 0%nat ({[ 0%nat := fading_table ]} : heap)
                 = (Ok 0%nat, {[ 0%nat := set_values fading_table fading_enforced ]}))
    by reflexivity.
  destruct (force_mag_monotonicity_rows {[ 0%nat := fading_table ]}
              {[ 0%nat := set_values fading_table fading_enforced ]}
              0%nat 0%nat fading_table Hdf fading_table_rectangular Hrun)
    as (df' & Hdf' & _ & _ & _ & Hrows & _).
  exists df'. split; [exact Hdf' | exact Hrows].
Defined.

Lemma force_mag_monotonicity_twice_witness :
  exists h1 h2,
    _force_mag_monotonicity 0%nat ({[ 0%nat := fading_table ]} : heap) = (Ok 0%nat, h1) /\
    _force_mag_monotonicity 0%nat h1 = (Ok 0%nat, h2).
Proof.
  assert (Hdf : ({[ 0%nat := fading_table ]} : heap) !! 0%nat = Some fading_table)
    by reflexivity.
  destruct (force_mag_monotonicity_twice {[ 0%nat := fading_table ]} 0%nat
              fading_table Hdf fading_table_rectangular)
    as (h1 & h2 & _ & _ & H1 & H2 & _).
  exists h1, h2. split; [exact H1 | exact H2].
Defined.

Lemma force_z_unimodality_on_store_witness :
  exists v,
    _force_z_unimodality 0%nat ({[ 0%nat := near_peak_table ]} : heap)
    = (Ok 0%nat, <[0%nat := set_values near_peak_table v]> {[ 0%nat := near_peak_table ]}) /\
    grid_of 2 2 v.
Proof.
  assert (Hrows : values near_peak_table <> []) by discriminate.
  assert (Hdf : ({[ 0%nat := near_peak_table ]} : heap) !! 0%nat
                = Some near_peak_table) by reflexivity.
  destruct (force_z_unimodality_on_store {[ 0%nat := near_peak_table ]} 0%nat
              near_peak_table Hdf near_peak_table_rectangular Hrows)
    as (v & Hrun & Hgrid & _).
  exists v. split; [exact Hrun | exact Hgrid].
Defined.

Lemma force_z_unimodality_without_rows_witness :
  exists msg,
    _force_z_unimodality 0%nat ({[ 0%nat := header_only_table ]} : heap)
    = (Raise (ValueError msg), {[ 0%nat := header_only_table ]}).
Proof.
  assert (Hcols : columns header_only_table <> []) by discriminate.
  assert (Hdf : ({[ 0%nat := header_only_table ]} : heap) !! 0%nat
                = Some header_only_table) by reflexivity.
  exact (force_z_unimodality_without_rows {[ 0%nat := header_only_table ]} 0%nat
           header_only_table Hdf eq_refl Hcols).
Defined.

Lemma init_first_match_witness :
  __init__ linear_interpolator
    [single_file "completeness_g.dat" fading_table;
     single_file u_file rising_table;
     single_file u_file near_peak_table] "u" 26 ∅
  = __init__ linear_interpolator [single_file u_file rising_table] "u" 26 ∅.
Proof.
  assert (Hpre : Forall (fun d' : directory => d' (table_file "u") = None)
                   [single_file "completeness_g.dat" fading_table])
    by (repeat constructor).
  assert (Hd : is_Some (single_file u_file rising_table (table_file "u")))
    by (eexists; reflexivity).
  exact (proj1 (init_first_match linear_interpolator
                  [single_file "completeness_g.dat" fading_table]
                  (single_file u_file rising_table)
                  [single_file u_file near_peak_table] "u" 26 ∅ Hpre Hd)).
Defined.

Lemma init_without_rows_witness :
  exists msg h',
    __init__ linear_interpolator [single_file u_file header_only_table] "u" 26 ∅
    = (Raise (ValueError msg), h').
Proof.
  assert (Hcols : columns header_only_table <> []) by discriminate.
  exact (init_without_rows linear_interpolator [single_file u_file header_only_table]
           "u" 26 ∅ header_only_table eq_refl eq_refl eq_refl Hcols).
Defined.

Lemma init_stored_values_witness :
  exists stored,
    ({[ 0%nat := set_values near_peak_table near_peak_stored ]} : heap)
      !! table near_peak_estimator = Some stored /\
    rectangular stored.
Proof.
  destruct (init_stored_values linear_interpolator
              [single_file u_file near_peak_table] "u" 26 ∅
              {[ 0%nat := set_values near_peak_table near_peak_stored ]}
              near_peak_table near_peak_estimator
              eq_refl near_peak_table_rectangular near_peak_estimator_built)
    as (stored & Hs & _ & _ & Hrect & _).
  exists stored. split; [exact Hs | exact Hrect].
Defined.

Lemma init_columns_unimodal_witness :
  exists stored col,
    ({[ 0%nat := set_values near_peak_table near_peak_stored ]} : heap)
      !! table near_peak_estimator = Some stored /\
    mapM (.!! 1%nat) (values stored) = Some col /\ unimodal col.
Proof.
  apply (init_columns_unimodal linear_interpolator
           [single_file u_file near_peak_table] "u" 26 ∅
           {[ 0%nat := set_values near_peak_table near_peak_stored ]}
           near_peak_table near_peak_estimator 1%nat
           eq_refl near_peak_table_rectangular near_peak_estimator_built).
  simpl. lia.
Defined.


Lemma init_tables_apart_witness :
  exists self2 h2,
    __init__ linear_interpolator [single_file u_file near_peak_table] "u" 26
      rising_store = (Ok self2, h2) /\
    table rising_estimator <> table self2 /\
    h2 !! table rising_estimator = rising_store !! table rising_estimator.
Proof.
  eexists _, _. split; [reflexivity|].
  destruct (init_tables_apart linear_interpolator
              [single_file u_file rising_table] "u" 26
              [single_file u_file near_peak_table] "u" 26
              ∅ rising_store _ rising_table near_peak_table rising_estimator _
              eq_refl rising_table_rectangular eq_refl near_peak_table_rectangular
              rising_estimator_built eq_refl) as (Hne & _ & Hsame).
  split; [exact Hne | exact Hsame].
Defined.

Lemma call_answer_shape_witness :
  exists hh w c,
    broadcast_dim 1 1 = Ok hh /\ broadcast_dim 3 1 = Ok w /\ grid_of hh w c /\
    Array1 [200 # 400; 360 # 400; 520 # 400]%Q = squeeze {| width := w; rows := c |}.
Proof.
  destruct (call_answer_shape rising_estimator (Scalar (-100)) (Array1 [0; 1; 2]%Q)
              rising_store rising_store
              (Array1 [200 # 400; 360 # 400; 520 # 400]%Q))
    as (hh & w & c & Eh & Ew & Hgrid & Hr & _).
  - repeat constructor.
  - repeat constructor.
  - reflexivity.
  - exists hh, w, c. auto.
Defined.

Lemma call_unimodal_witness :
  unimodal [200 # 400; 360 # 400; 520 # 400]%Q.
Proof.
  destruct (call_unimodal rising_estimator (Scalar (-100)) (Array1 [0; 1; 2]%Q)
              rising_store rising_store
              (Array1 [200 # 400; 360 # 400; 520 # 400]%Q)) as [H1 _].
  - repeat constructor.
  - repeat constructor.
  - reflexivity.
  - apply H1. reflexivity.
Defined.
